(** * Flappy Bird (flappy_bird.c): the game state, its per-frame update,
      the collision test, the spawn and the reset, embedded in Rocq.

    The C program keeps its state in globals ([bird], [pipes], [next_pipe],
    [game_over], [score], [last_pipe_time]); here they are the fields of one
    record that every function takes and returns.  The two outside sources
    of values, [SDL_GetTicks()] and [rand()], are arguments.

    Numbers are modelled as the C code has them:
    - [int] is a 32-bit two's-complement integer, a [Z] kept in range by
      [sint32]; [Uint32] is a [Z] reduced by [uint32];
    - [float] is IEEE-754 binary32 and [double] binary64, both as
      [spec_float] with the operations of [SpecFloat] at the respective
      precision. *)

From Stdlib Require Import ZArith QArith Qround Lia Bool List.
From Stdlib Require Import Floats.SpecFloat.
From stdpp Require Import base list.

Open Scope Z_scope.

(** ** Machine integers *)

Definition INT_MIN : Z := - 2 ^ 31.
Definition INT_MAX : Z := 2 ^ 31 - 1.

(** Reduction of a mathematical integer to [int].  Signed overflow is
    undefined in ISO C; the model gives the two's-complement result the
    compiled program computes. *)
Definition sint32 (z : Z) : Z := (z + 2 ^ 31) mod 2 ^ 32 - 2 ^ 31.

(** Reduction to [Uint32], where C arithmetic is modular by definition. *)
Definition uint32 (z : Z) : Z := z mod 2 ^ 32.

Definition int_add (a b : Z) : Z := sint32 (a + b).
Definition int_sub (a b : Z) : Z := sint32 (a - b).
(** [/] and [%] on [int] truncate toward zero. *)
Definition int_div (a b : Z) : Z := sint32 (Z.quot a b).
Definition int_mod (a b : Z) : Z := Z.rem a b.

Definition in_int (z : Z) : Prop := INT_MIN <= z <= INT_MAX.

(** ** Floating point *)

Definition float := spec_float.   (* binary32 *)
Definition double := spec_float.  (* binary64 *)

Definition f32_prec : Z := 24.
Definition f32_emax : Z := 128.
Definition f64_prec : Z := 53.
Definition f64_emax : Z := 1024.

(** Conversion of a value to the format [(prec, emax)], rounding to nearest
    even: the implicit conversions of C between [float] and [double]. *)
Definition SFconv (prec emax : Z) (f : spec_float) : spec_float :=
  match f with
  | S754_finite s m e => binary_normalize prec emax (cond_Zopp s (Zpos m)) e s
  | _ => f
  end.

Definition float_of_double (d : double) : float := SFconv f32_prec f32_emax d.
Definition double_of_float (f : float) : double := SFconv f64_prec f64_emax f.

(** Conversion of an [int] to [float]. *)
Definition float_of_int (z : Z) : float :=
  binary_normalize f32_prec f32_emax z 0 false.

Definition float_add (a b : float) : float := SFadd f32_prec f32_emax a b.
Definition double_add (a b : double) : double := SFadd f64_prec f64_emax a b.

(** The real number a float stands for, [(-1)^s * m * 2^e], as a rational;
    [None] for infinities and NaN. *)
Definition SF2Q (f : spec_float) : option Q :=
  match f with
  | S754_zero _ => Some 0%Q
  | S754_finite s m e =>
      Some (inject_Z (cond_Zopp s (Zpos m)) * Qpower 2 e)%Q
  | _ => None
  end.

(** A rational with its fractional part discarded (rounded toward zero). *)
Definition Qtrunc (q : Q) : Z := Z.quot (Qnum q) (Zpos (Qden q)).

Definition SFtrunc (f : spec_float) : option Z := Qtrunc <$> SF2Q f.

(** The greatest integer below or equal to the value. *)
Definition SFfloor (f : spec_float) : option Z := Qfloor <$> SF2Q f.

(** The cast [(int)f].  C discards the fractional part.  When the result
    does not fit in [int] (or [f] is an infinity or NaN) the cast is
    undefined in ISO C; the model returns what the x86-64 build this game
    is compiled for delivers there (cvttss2si: the integer indefinite
    value, [INT_MIN]). *)
Definition int_of_float (f : float) : Z :=
  match SFtrunc f with
  | Some t => if (INT_MIN <=? t) && (t <=? INT_MAX) then t else INT_MIN
  | None => INT_MIN
  end.

(** ** Constants of the game *)

Definition SCREEN_WIDTH : Z := 800.
Definition SCREEN_HEIGHT : Z := 600.
Definition BIRD_WIDTH : Z := 40.
Definition BIRD_HEIGHT : Z := 30.
(** [0.4] as the nearest binary64 value, 0x3FD999999999999A. *)
Definition GRAVITY : double := S754_finite false 7205759403792794 (-54).
(** [-8.0] as a binary64 value. *)
Definition JUMP_FORCE : double := S754_finite true 4503599627370496 (-49).
Definition PIPE_WIDTH : Z := 60.
Definition PIPE_GAP : Z := 170.
Definition PIPE_SPEED : Z := 3.
Definition MAX_PIPES : Z := 10.
Definition PIPE_SPAWN_TIME : Z := 1500.

(** ** Game structures *)

Record SDL_Rect := mkRect { rect_x : Z; rect_y : Z; rect_w : Z; rect_h : Z }.

Record Bird := mkBird {
  bird_x : float;
  bird_y : float;
  bird_velocity : float;
  bird_rect : SDL_Rect
}.

Record Pipe := mkPipe {
  pipe_x : Z;
  pipe_gap_y : Z;
  pipe_passed : bool;
  pipe_top_rect : SDL_Rect;
  pipe_bottom_rect : SDL_Rect
}.

(** The globals of the program.  [pipes] is the array [Pipe pipes[MAX_PIPES]]:
    a list whose length is [MAX_PIPES] in every state of the program. *)
Record Game := mkGame {
  bird : Bird;
  pipes : list Pipe;
  next_pipe : Z;
  game_over : bool;
  score : Z;
  last_pipe_time : Z
}.

(** Field assignments. *)
Definition set_rect_x (v : Z) (r : SDL_Rect) : SDL_Rect :=
  mkRect v (rect_y r) (rect_w r) (rect_h r).
Definition set_rect_y (v : Z) (r : SDL_Rect) : SDL_Rect :=
  mkRect (rect_x r) v (rect_w r) (rect_h r).

Definition set_bird (b : Bird) (g : Game) : Game :=
  mkGame b (pipes g) (next_pipe g) (game_over g) (score g) (last_pipe_time g).
Definition set_pipes (ps : list Pipe) (g : Game) : Game :=
  mkGame (bird g) ps (next_pipe g) (game_over g) (score g) (last_pipe_time g).
Definition set_next_pipe (n : Z) (g : Game) : Game :=
  mkGame (bird g) (pipes g) n (game_over g) (score g) (last_pipe_time g).
Definition set_game_over (b : bool) (g : Game) : Game :=
  mkGame (bird g) (pipes g) (next_pipe g) b (score g) (last_pipe_time g).
Definition set_score (n : Z) (g : Game) : Game :=
  mkGame (bird g) (pipes g) (next_pipe g) (game_over g) n (last_pipe_time g).
Definition set_last_pipe_time (t : Z) (g : Game) : Game :=
  mkGame (bird g) (pipes g) (next_pipe g) (game_over g) (score g) t.

(** ** check_collision *)

Definition rect_left (r : SDL_Rect) : Z := rect_x r.
Definition rect_right (r : SDL_Rect) : Z := int_add (rect_x r) (rect_w r).
Definition rect_top (r : SDL_Rect) : Z := rect_y r.
Definition rect_bottom (r : SDL_Rect) : Z := int_add (rect_y r) (rect_h r).

Definition check_collision (a b : SDL_Rect) : bool :=
  let left_a := rect_left a in
  let right_a := rect_right a in
  let top_a := rect_top a in
  let bottom_a := rect_bottom a in
  let left_b := rect_left b in
  let right_b := rect_right b in
  let top_b := rect_top b in
  let bottom_b := rect_bottom b in
  if bottom_a <=? top_b then false
  else if top_a >=? bottom_b then false
  else if right_a <=? left_b then false
  else if left_a >=? right_b then false
  else true.

(** ** create_pipe

    [r] is the value [rand()] returns.  The new pipe is stored at
    [pipes[next_pipe]]; [next_pipe] is in [0, MAX_PIPES) in every state of
    the program (see [next_pipe_ok]). *)

Definition set_pipe (i : nat) (p : Pipe) (g : Game) : Game :=
  set_pipes (<[i := p]> (pipes g)) g.

Definition pipe_gap_for (r : Z) : Z :=
  let min_gap_y := int_add (int_div PIPE_GAP 2) 50 in
  let max_gap_y := int_sub (int_sub SCREEN_HEIGHT (int_div PIPE_GAP 2)) 50 in
  int_add min_gap_y (int_mod r (int_sub max_gap_y min_gap_y)).

Definition new_pipe_for (r : Z) : Pipe :=
  let x := SCREEN_WIDTH in
  let gap_y := pipe_gap_for r in
  let top_rect := mkRect x 0 PIPE_WIDTH (int_sub gap_y (int_div PIPE_GAP 2)) in
  let bottom_y := int_add gap_y (int_div PIPE_GAP 2) in
  let bottom_rect :=
    mkRect x bottom_y PIPE_WIDTH (int_sub SCREEN_HEIGHT bottom_y) in
  mkPipe x gap_y false top_rect bottom_rect.

Definition create_pipe (r : Z) (g : Game) : Game :=
  let new_pipe := new_pipe_for r in
  let g1 := set_pipe (Z.to_nat (next_pipe g)) new_pipe g in
  set_next_pipe (int_mod (int_add (next_pipe g1) 1) MAX_PIPES) g1.

(** ** update_game

    [now] is the value of [SDL_GetTicks()], [r] the value [rand()] returns
    if [create_pipe] is called. *)

(** A [for (int i = start; ...; i++)] loop of [n] iterations. *)
Fixpoint for_loop (n : nat) (i : nat) (body : nat -> Game -> Game) (g : Game)
  : Game :=
  match n with
  | O => g
  | S n' => for_loop n' (S i) body (body i g)
  end.

(** Lines 241-247: spawn. *)
Definition spawn_pipe (now r : Z) (g : Game) : Game :=
  let current_time := now in
  if PIPE_SPAWN_TIME <? uint32 (current_time - last_pipe_time g)
  then set_last_pipe_time current_time (create_pipe r g)
  else g.

(** Lines 249-252: the bird moves.  [bird.velocity += GRAVITY] adds in
    [double] and rounds the sum to [float]. *)
Definition move_bird (b : Bird) : Bird :=
  let velocity :=
    float_of_double (double_add (double_of_float (bird_velocity b)) GRAVITY) in
  let y := float_add (bird_y b) velocity in
  mkBird (bird_x b) y velocity (set_rect_y (int_of_float y) (bird_rect b)).

(** Lines 254-260: the ceiling. *)
Definition clamp_ceiling (b : Bird) : Bird :=
  if rect_y (bird_rect b) <? 0
  then mkBird (bird_x b) (float_of_int 0) (float_of_int 0)
              (set_rect_y 0 (bird_rect b))
  else b.

(** Lines 262-266: the ground. *)
Definition hits_ground (b : Bird) : bool :=
  int_sub SCREEN_HEIGHT 20 <? int_add (rect_y (bird_rect b)) (rect_h (bird_rect b)).

Definition check_ground (g : Game) : Game :=
  if hits_ground (bird g) then set_game_over true g else g.

(** Lines 275-278: one pipe moves left. *)
Definition move_pipe (p : Pipe) : Pipe :=
  let x := int_sub (pipe_x p) PIPE_SPEED in
  mkPipe x (pipe_gap_y p) (pipe_passed p)
         (set_rect_x x (pipe_top_rect p)) (set_rect_x x (pipe_bottom_rect p)).

Definition set_pipe_passed (v : bool) (p : Pipe) : Pipe :=
  mkPipe (pipe_x p) (pipe_gap_y p) v (pipe_top_rect p) (pipe_bottom_rect p).

(** Line 281: the test that the bird has passed the pipe. *)
Definition pipe_scores (b : SDL_Rect) (p : Pipe) : bool :=
  negb (pipe_passed p) && (int_add (pipe_x p) PIPE_WIDTH <? rect_x b).

(** Lines 288-289: the test that the bird touches the pipe. *)
Definition pipe_hits (b : SDL_Rect) (p : Pipe) : bool :=
  check_collision b (pipe_top_rect p) || check_collision b (pipe_bottom_rect p).

(** Lines 271-292: the body of the loop over the pipes, at index [i].  The
    array has its [MAX_PIPES] slots in every state of the program; on a
    shorter list the body does nothing at a missing index. *)
Definition update_pipe (i : nat) (g : Game) : Game :=
  match pipes g !! i with
  | None => g
  | Some p =>
      if SCREEN_WIDTH + 100 <? pipe_x p then g
      else
        let p1 := move_pipe p in
        let scored := pipe_scores (bird_rect (bird g)) p1 in
        let p2 := if scored then set_pipe_passed true p1 else p1 in
        let g1 := set_pipe i p2 g in
        let g2 := if scored then set_score (int_add (score g1) 1) g1 else g1 in
        if pipe_hits (bird_rect (bird g2)) p2 then set_game_over true g2
        else g2
  end.

Definition update_pipes (g : Game) : Game :=
  for_loop (Z.to_nat MAX_PIPES) 0 update_pipe g.

Definition update_bird (g : Game) : Game :=
  set_bird (clamp_ceiling (move_bird (bird g))) g.

Definition update_game (now r : Z) (g : Game) : Game :=
  update_pipes (check_ground (update_bird (spawn_pipe now r g))).

(** ** reset_game

    [now] is the value of [SDL_GetTicks()].  The loop over the pipes
    assigns the field [x] only. *)

Definition set_pipe_x (v : Z) (p : Pipe) : Pipe :=
  mkPipe v (pipe_gap_y p) (pipe_passed p) (pipe_top_rect p) (pipe_bottom_rect p).

Definition reset_pipe (i : nat) (g : Game) : Game :=
  set_pipes (alter (set_pipe_x (sint32 (SCREEN_WIDTH * 2))) i (pipes g)) g.

Definition reset_bird (b : Bird) : Bird :=
  let x := float_of_int (int_div SCREEN_WIDTH 4) in
  let y := float_of_int (int_div SCREEN_HEIGHT 2) in
  mkBird x y (float_of_int 0)
         (mkRect (int_of_float x) (int_of_float y) BIRD_WIDTH BIRD_HEIGHT).

Definition reset_game (now : Z) (g : Game) : Game :=
  let g1 := set_bird (reset_bird (bird g)) g in
  let g2 := for_loop (Z.to_nat MAX_PIPES) 0 reset_pipe g1 in
  set_last_pipe_time now (set_score 0 (set_game_over false g2)).

(** ** render_game

    The renderer calls are collected in a list, in the order they are made.
    [last_score] is the function's static variable. *)

Inductive DrawCmd :=
| SetRenderDrawColor (r g b a : Z)
| RenderClear
| RenderFillRect (rect : SDL_Rect)
| RenderDrawLine (x1 y1 x2 y2 : Z)
| RenderPresent
| PrintScore (n : Z).

(** Lines 306-310: the body of the loop that draws the pipes. *)
Definition render_pipe (p : Pipe) : list DrawCmd :=
  if (0 <? int_add (pipe_x p) PIPE_WIDTH) && (pipe_x p <? SCREEN_WIDTH)
  then [RenderFillRect (pipe_top_rect p); RenderFillRect (pipe_bottom_rect p)]
  else [].

Fixpoint render_pipes (n : nat) (i : nat) (ps : list Pipe) : list DrawCmd :=
  match n with
  | O => []
  | S n' =>
      match ps !! i with
      | Some p => render_pipe p
      | None => []
      end ++ render_pipes n' (S i) ps
  end.

Definition digit_width : Z := 20.
Definition digit_spacing : Z := 5.

(** Lines 340-360: the score 0. *)
Definition draw_zero_score (x_position : Z) : list DrawCmd :=
  [ SetRenderDrawColor 255 255 255 255;
    RenderFillRect (mkRect x_position 20 digit_width 4);
    RenderFillRect (mkRect x_position (20 + digit_width) digit_width 4);
    RenderFillRect (mkRect x_position 20 4 (digit_width + 4));
    RenderFillRect (mkRect (x_position + digit_width - 4) 20 4 (digit_width + 4)) ].

(** Lines 371-408: one digit. *)
Definition draw_digit (digit x_position : Z) : list DrawCmd :=
  match digit with
  | 0 =>
      [ RenderDrawLine x_position 20 (x_position + digit_width) 20;
        RenderDrawLine x_position (20 + digit_width)
                       (x_position + digit_width) (20 + digit_width);
        RenderDrawLine x_position 20 x_position (20 + digit_width);
        RenderDrawLine (x_position + digit_width) 20
                       (x_position + digit_width) (20 + digit_width) ]
  | 1 =>
      [ RenderDrawLine (x_position + digit_width) 20
                       (x_position + digit_width) (20 + digit_width) ]
  | 2 =>
      [ RenderDrawLine x_position 20 (x_position + digit_width) 20;
        RenderDrawLine x_position (20 + Z.quot digit_width 2)
                       (x_position + digit_width) (20 + Z.quot digit_width 2);
        RenderDrawLine x_position (20 + digit_width)
                       (x_position + digit_width) (20 + digit_width);
        RenderDrawLine (x_position + digit_width) 20
                       (x_position + digit_width) (20 + Z.quot digit_width 2);
        RenderDrawLine x_position (20 + Z.quot digit_width 2)
                       x_position (20 + digit_width) ]
  | _ => [ RenderFillRect (mkRect x_position 20 digit_width digit_width) ]
  end.

(** Lines 363-412: the loop over the digits.  [fuel] bounds the number of
    iterations; an [int] has at most ten decimal digits. *)
Fixpoint draw_digits (fuel : nat) (score_display x_position : Z)
  : list DrawCmd :=
  match fuel with
  | O => []
  | S fuel' =>
      if 0 <? score_display then
        let digit := int_mod score_display 10 in
        SetRenderDrawColor 255 255 255 255
          :: draw_digit digit x_position
          ++ draw_digits fuel' (int_div score_display 10)
                         (x_position + (digit_width + digit_spacing))
      else []
  end.

Definition score_digits_fuel : nat := 10.

Definition render_game (last_score : Z) (g : Game) : list DrawCmd * Z :=
  let x_position := 20 in
  ( [ SetRenderDrawColor 135 206 250 255; RenderClear;
      SetRenderDrawColor 0 128 0 255 ]
    ++ render_pipes (Z.to_nat MAX_PIPES) 0 (pipes g)
    ++ [ SetRenderDrawColor 139 69 19 255;
         RenderFillRect (mkRect 0 (SCREEN_HEIGHT - 20) SCREEN_WIDTH 20);
         SetRenderDrawColor 255 255 0 255;
         RenderFillRect (bird_rect (bird g)) ]
    ++ (if game_over g
        then [ SetRenderDrawColor 255 0 0 255;
               RenderFillRect (mkRect (Z.quot SCREEN_WIDTH 2 - 100)
                                      (Z.quot SCREEN_HEIGHT 2 - 30) 200 60) ]
        else [])
    ++ (if score g =? 0 then draw_zero_score x_position else [])
    ++ draw_digits score_digits_fuel (score g) x_position
    ++ (if score g =? last_score then [] else [PrintScore (score g)])
    ++ [ RenderPresent ],
    score g ).

(** ** main: the events and one iteration of the game loop *)

Inductive Keycode := SDLK_SPACE | SDLK_ESCAPE | SDLK_OTHER.
Inductive MouseButton := SDL_BUTTON_LEFT | SDL_BUTTON_OTHER.
Inductive SDL_Event :=
| SDL_QUIT
| SDL_KEYDOWN (sym : Keycode)
| SDL_MOUSEBUTTONDOWN (button : MouseButton)
| SDL_OTHER_EVENT.

(** The globals together with the local [quit] of [main]. *)
Record Loop := mkLoop { game : Game; quit : bool }.

Definition set_bird_velocity (v : float) (b : Bird) : Bird :=
  mkBird (bird_x b) (bird_y b) v (bird_rect b).

(** Lines 136-143 and 154-161: the space key and the left button. *)
Definition jump_or_restart (now : Z) (g : Game) : Game :=
  if game_over g then reset_game now g
  else set_bird (set_bird_velocity (float_of_double JUMP_FORCE) (bird g)) g.

(** Lines 127-163: one event.  [now] is what [SDL_GetTicks()] returns when
    this event calls [reset_game]. *)
Definition handle_event (l : Loop) (ev : SDL_Event * Z) : Loop :=
  let '(e, now) := ev in
  match e with
  | SDL_QUIT => mkLoop (game l) true
  | SDL_KEYDOWN SDLK_SPACE => mkLoop (jump_or_restart now (game l)) (quit l)
  | SDL_KEYDOWN SDLK_ESCAPE => mkLoop (game l) true
  | SDL_KEYDOWN SDLK_OTHER => l
  | SDL_MOUSEBUTTONDOWN SDL_BUTTON_LEFT =>
      mkLoop (jump_or_restart now (game l)) (quit l)
  | SDL_MOUSEBUTTONDOWN SDL_BUTTON_OTHER => l
  | SDL_OTHER_EVENT => l
  end.

(** The jump signal: the events that jump or restart. *)
Definition is_jump (e : SDL_Event) : bool :=
  match e with
  | SDL_KEYDOWN SDLK_SPACE => true
  | SDL_MOUSEBUTTONDOWN SDL_BUTTON_LEFT => true
  | _ => false
  end.

(** What one iteration of the loop receives: the pending events, each with
    the clock value at its handling, the clock value and the [rand()] value
    for [update_game]. *)
Record Frame := mkFrame {
  frame_events : list (SDL_Event * Z);
  frame_now : Z;
  frame_rand : Z
}.

(** Lines 124-170: the events are handled, then the game is updated unless
    it is over.  [render_game] reads the globals and changes none. *)
Definition main_iteration (f : Frame) (l : Loop) : Loop :=
  let l1 := fold_left handle_event (frame_events f) l in
  if negb (game_over (game l1))
  then mkLoop (update_game (frame_now f) (frame_rand f) (game l1)) (quit l1)
  else l1.

(** The loop [while (!quit)] over the frames that arrive. *)
Fixpoint main_loop (fs : list Frame) (l : Loop) : Loop :=
  match fs with
  | [] => l
  | f :: fs' => if quit l then l else main_loop fs' (main_iteration f l)
  end.

(** The globals as C initialises them at program start. *)
Definition zero_rect : SDL_Rect := mkRect 0 0 0 0.
Definition zero_pipe : Pipe := mkPipe 0 0 false zero_rect zero_rect.
Definition zero_bird : Bird :=
  mkBird (S754_zero false) (S754_zero false) (S754_zero false) zero_rect.
Definition initial_game : Game :=
  mkGame zero_bird (replicate (Z.to_nat MAX_PIPES) zero_pipe) 0 false 0 0.

(** [main] before its loop: [reset_game()] at clock value [now]. *)
Definition start_game (now : Z) : Loop :=
  mkLoop (reset_game now initial_game) false.

(** The states the program can be in at the top of its loop. *)
Inductive reachable : Loop -> Prop :=
| reachable_start now : reachable (start_game now)
| reachable_step f l :
    reachable l -> quit l = false -> reachable (main_iteration f l).

(** ** Vocabulary of the statements *)

(** The float [f] stands for exactly the rational [q]. *)
Definition SFis (f : spec_float) (q : Q) : Prop :=
  match SF2Q f with
  | Some v => (v == q)%Q
  | None => False
  end.

(** The edges of a rectangle as exact integers. *)
Definition right_of (r : SDL_Rect) : Z := rect_x r + rect_w r.
Definition bottom_of (r : SDL_Rect) : Z := rect_y r + rect_h r.

(** Both far edges of the rectangle fit in an [int]. *)
Definition rect_fits (r : SDL_Rect) : Prop :=
  in_int (right_of r) /\ in_int (bottom_of r).

(** What the loop of [update_game] does to the pipe of one slot, for the
    bird box [b]: the pipe it leaves there, whether it scored, whether
    it was hit. *)
Definition slot_relevant (p : Pipe) : bool := negb (SCREEN_WIDTH + 100 <? pipe_x p).

Definition slot_scored (b : SDL_Rect) (p : Pipe) : bool :=
  slot_relevant p && pipe_scores b (move_pipe p).

Definition slot_after (b : SDL_Rect) (p : Pipe) : Pipe :=
  if slot_relevant p then
    if pipe_scores b (move_pipe p) then set_pipe_passed true (move_pipe p)
    else move_pipe p
  else p.

Definition slot_hit (b : SDL_Rect) (p : Pipe) : bool :=
  slot_relevant p && pipe_hits b (slot_after b p).

(** The number of [true] among the values of [f] on a list. *)
Fixpoint count_if {A} (f : A -> bool) (l : list A) : Z :=
  match l with
  | [] => 0
  | a :: l' => (if f a then 1 else 0) + count_if f l'
  end.

(** The number of slots whose [passed] is false in [before] and true in
    [after]. *)
Fixpoint flips (before after : list Pipe) : Z :=
  match before, after with
  | p :: before', q :: after' =>
      (if negb (pipe_passed p) && pipe_passed q then 1 else 0)
      + flips before' after'
  | _, _ => 0
  end.

(** The score after the slots of [l] have been visited, from [s]. *)
Definition score_over (b : SDL_Rect) (l : list Pipe) (s : Z) : Z :=
  fold_left (fun s p => if slot_scored b p then int_add s 1 else s) l s.

(** A frame without jump signal. *)
Definition no_jump (f : Frame) : Prop :=
  Forall (fun ev => is_jump (fst ev) = false) (frame_events f).

(** What holds of the globals in every state of the program: the array has
    [MAX_PIPES] slots, [next_pipe] indexes it, and the bird's box keeps the
    place and size [reset_game] gave it. *)
Definition well_formed (g : Game) : Prop :=
  length (pipes g) = Z.to_nat MAX_PIPES
  /\ 0 <= next_pipe g < MAX_PIPES
  /\ rect_x (bird_rect (bird g)) = SCREEN_WIDTH / 4
  /\ rect_w (bird_rect (bird g)) = BIRD_WIDTH
  /\ rect_h (bird_rect (bird g)) = BIRD_HEIGHT.

(** ** Example states and inputs *)

(** A frame with the space key pressed, and one without events. *)
Definition jump_frame (now : Z) : Frame :=
  mkFrame [(SDL_KEYDOWN SDLK_SPACE, now)] now 0.
Definition idle_frame (now : Z) : Frame := mkFrame [] now 0.

(** Frames 16 ms apart, from clock value [t]: a jump where the list says
    [true]. *)
Fixpoint frames_from (t : Z) (jumps : list bool) : list Frame :=
  match jumps with
  | [] => []
  | j :: jumps' =>
      (if j then jump_frame t else idle_frame t) :: frames_from (t + 16) jumps'
  end.

(** A player who keeps jumping from the start: 33 jumps, two frames of
    rest, a jump, three frames of rest. *)
Definition climb_frames : list Frame :=
  frames_from 16
    (replicate 33 true ++ [false; false] ++ [true; false; false; false]).

(** The game after these 39 frames, and after the jump of the 40th frame
    has been handled. *)
Definition game_near_ceiling : Game :=
  game (main_loop climb_frames (start_game 0)).
Definition game_jumping_at_ceiling : Game :=
  jump_or_restart 640 game_near_ceiling.

(** The game just reset, with the bird at [y = 570]. *)
Definition game_bird_low : Game :=
  let g := reset_game 0 initial_game in
  set_bird (mkBird (bird_x (bird g)) (float_of_int 570) (bird_velocity (bird g))
                   (set_rect_y 570 (bird_rect (bird g)))) g.

(** The game just reset, with a pipe in slot 0 whose right edge is level
    with the left edge of the bird's box. *)
Definition game_pipe_passing : Game :=
  set_pipe 0 (mkPipe 140 300 false (mkRect 140 0 60 215) (mkRect 140 385 60 215))
           (reset_game 0 initial_game).

(** The game just reset, with the bird falling at velocity [5.0]. *)
Definition game_bird_falling : Game :=
  let g := reset_game 0 initial_game in
  set_bird (set_bird_velocity (float_of_int 5) (bird g)) g.

(** A player who never jumps: after 35 frames the bird is on the ground
    and the game is over. *)
Definition fall_frames : list Frame := frames_from 16 (replicate 35 false).
Definition game_ended : Game := game (main_loop fall_frames (start_game 0)).

(** ** Vocabulary of the further properties *)

(** Successive calls of [create_pipe], with the values [rand()] returns. *)
Definition create_pipes (rs : list Z) (g : Game) : Game :=
  fold_left (fun g r => create_pipe r g) rs g.

(** Successive calls of [update_game], each with its clock value and its
    [rand()] value. *)
Definition updates (steps : list (Z * Z)) (g : Game) : Game :=
  fold_left (fun g step => update_game (fst step) (snd step) g) steps g.

(** The spawns of these updates leave the slot [i] as it is. *)
Fixpoint slot_kept (i : nat) (steps : list (Z * Z)) (g : Game) : Prop :=
  match steps with
  | [] => True
  | step :: steps' =>
      pipes (spawn_pipe (fst step) (snd step) g) !! i = pipes g !! i
      /\ slot_kept i steps' (update_game (fst step) (snd step) g)
  end.

(** The time since the last spawn, on the 32-bit clock that wraps. *)
Definition elapsed (now last : Z) : Z :=
  if last <=? now then now - last else now + 2 ^ 32 - last.

(** The boxes of a pipe are the ones its [x] and [gap_y] give. *)
Definition pipe_consistent (p : Pipe) : Prop :=
  pipe_top_rect p =
    mkRect (pipe_x p) 0 PIPE_WIDTH (pipe_gap_y p - PIPE_GAP / 2)
  /\ pipe_bottom_rect p =
       mkRect (pipe_x p) (pipe_gap_y p + PIPE_GAP / 2) PIPE_WIDTH
              (SCREEN_HEIGHT - (pipe_gap_y p + PIPE_GAP / 2)).

(** A slot as the program has them: parked by [reset_game], or a pipe with
    its boxes. *)
Definition slot_ok (p : Pipe) : Prop :=
  pipe_x p = 2 * SCREEN_WIDTH \/ pipe_consistent p.

(** The point [(px, py)] lies in the rectangle. *)
Definition inside (r : SDL_Rect) (px py : Z) : Prop :=
  rect_x r <= px < right_of r /\ rect_y r <= py < bottom_of r.

(** The events that end the loop. *)
Definition is_quit (e : SDL_Event) : bool :=
  match e with
  | SDL_QUIT => true
  | SDL_KEYDOWN SDLK_ESCAPE => true
  | _ => false
  end.

(** The glyphs of the [n] lowest decimal digits of [s], the digit of
    [10^k] at [x + 25 k]. *)
Definition glyphs (s x : Z) (n : nat) : list DrawCmd :=
  flat_map
    (fun k => SetRenderDrawColor 255 255 255 255
              :: draw_digit ((s / 10 ^ Z.of_nat k) mod 10)
                            (x + (digit_width + digit_spacing) * Z.of_nat k))
    (seq 0 n).

(** A pipe is drawn: some of it is on the screen. *)
Definition pipe_visible (p : Pipe) : Prop :=
  - PIPE_WIDTH < pipe_x p < SCREEN_WIDTH.

(** The slot the [m]-th of successive calls of [create_pipe] writes. *)
Definition ring_slot (g : Game) (m : nat) : nat :=
  Z.to_nat ((next_pipe g + Z.of_nat m) mod MAX_PIPES).

(** An integer far from the bounds of [int], so that the sums the game
    forms with it do not overflow. *)
Definition small (z : Z) : Prop := - 2 ^ 29 <= z <= 2 ^ 29.

(** What holds of the bird in every state of the program: it stays at
    [x = 200], its box is where [(int)bird.y] puts it, not above the
    screen. *)
Definition bird_ok (b : Bird) : Prop :=
  bird_x b = float_of_int (int_div SCREEN_WIDTH 4)
  /\ rect_y (bird_rect b) = int_of_float (bird_y b)
  /\ 0 <= rect_y (bird_rect b).

(** The bird's part of one [update_game]. *)
Definition fly (b : Bird) : Bird := clamp_ceiling (move_bird b).

(** A frame with the events that end the loop taken out. *)
Definition drop_quit (f : Frame) : Frame :=
  mkFrame (List.filter (fun ev => negb (is_quit (fst ev))) (frame_events f))
          (frame_now f) (frame_rand f).

(** A frame has an event that ends the loop. *)
Definition has_quit (f : Frame) : bool :=
  existsb (fun ev => is_quit (fst ev)) (frame_events f).

(** The commands that write the score to the console. *)
Definition is_print (c : DrawCmd) : bool :=
  match c with
  | PrintScore _ => true
  | _ => false
  end.

(** The velocity after the frame of a jump: [JUMP_FORCE] with the gravity
    of that frame added, as [update_game] computes it. *)
Definition jump_velocity : float :=
  float_of_double
    (double_add (double_of_float (float_of_double JUMP_FORCE)) GRAVITY).

(** A frame has a jump signal. *)
Definition has_jump (f : Frame) : bool :=
  existsb (fun ev => is_jump (fst ev)) (frame_events f).

(** ** main: start-up and clean-up

    What the library answers at start-up: whether [SDL_Init] succeeds,
    whether [SDL_CreateWindow] returns a window, whether
    [SDL_CreateRenderer] returns a software renderer and, asked again, an
    accelerated one. *)
Record Startup := mkStartup {
  init_ok : bool;
  window_ok : bool;
  software_ok : bool;
  accelerated_ok : bool
}.

Inductive RendererFlag := SDL_RENDERER_SOFTWARE | SDL_RENDERER_ACCELERATED.

(** The messages of [main]: the first and the last go to [stdout], the
    others to [stderr]. *)
Inductive Message :=
| Starting
| InitFailed
| WindowFailed
| SoftwareFailed
| AllRenderersFailed
| ExitedCleanly.

(** The calls [main] makes outside its loop, in the order it makes them. *)
Inductive MainCall :=
| Print (m : Message)
| Srand
| SDL_Init
| SDL_CreateWindow
| SDL_CreateRenderer (flag : RendererFlag)
| SDL_DestroyRenderer
| SDL_DestroyWindow
| SDL_Quit.

(** Lines 109-185: with the renderer at hand the game is reset and the
    loop runs over the frames that arrive; when it has ended the renderer
    and the window are destroyed and [main] returns 0.  [None]: the loop
    has not ended with these frames. *)
Definition main_run (calls : list MainCall) (now : Z) (fs : list Frame)
  : list MainCall * option Z :=
  let l := main_loop fs (start_game now) in
  if quit l
  then (calls ++ [SDL_DestroyRenderer; SDL_DestroyWindow; SDL_Quit;
                  Print ExitedCleanly], Some 0)
  else (calls, None).

(** Lines 63-186: the calls of [main] and the value it returns. *)
Definition main (s : Startup) (now : Z) (fs : list Frame)
  : list MainCall * option Z :=
  let calls := [Print Starting; Srand; SDL_Init] in
  if negb (init_ok s) then (calls ++ [Print InitFailed], Some 1)
  else
    let calls := calls ++ [SDL_CreateWindow] in
    if negb (window_ok s)
    then (calls ++ [Print WindowFailed; SDL_Quit], Some 1)
    else
      let calls := calls ++ [SDL_CreateRenderer SDL_RENDERER_SOFTWARE] in
      if negb (software_ok s) then
        let calls :=
          calls ++ [Print SoftwareFailed;
                    SDL_CreateRenderer SDL_RENDERER_ACCELERATED] in
        if negb (accelerated_ok s)
        then (calls ++ [Print AllRenderersFailed; SDL_DestroyWindow; SDL_Quit],
              Some 1)
        else main_run calls now fs
      else main_run calls now fs.

(** * Properties *)

(** ** Machine integers *)

(** Goals of linear arithmetic over the bounds of [int] and the constants
    of the game. *)
Ltac int_arith :=
  unfold in_int, INT_MIN, INT_MAX, SCREEN_WIDTH, SCREEN_HEIGHT, PIPE_SPEED,
    PIPE_WIDTH, MAX_PIPES in *;
  lia.

Lemma sint32_id z : in_int z -> sint32 z = z.
Proof.
  unfold in_int, INT_MIN, INT_MAX, sint32. intros H.
  rewrite Z.mod_small by lia. lia.
Qed.

Lemma sint32_range z : in_int (sint32 z).
Proof.
  unfold in_int, INT_MIN, INT_MAX, sint32.
  pose proof (Z.mod_pos_bound (z + 2 ^ 31) (2 ^ 32) ltac:(lia)). lia.
Qed.

Lemma int_add_exact a b : in_int (a + b) -> int_add a b = a + b.
Proof. apply sint32_id. Qed.

Lemma int_sub_exact a b : in_int (a - b) -> int_sub a b = a - b.
Proof. apply sint32_id. Qed.

Lemma rect_right_exact r : in_int (right_of r) -> rect_right r = right_of r.
Proof. apply int_add_exact. Qed.

Lemma rect_bottom_exact r : in_int (bottom_of r) -> rect_bottom r = bottom_of r.
Proof. apply int_add_exact. Qed.

(** ** check_collision *)

Lemma check_collision_false_iff a b :
  check_collision a b = false <->
  rect_bottom a <= rect_top b \/ rect_top a >= rect_bottom b \/
  rect_right a <= rect_left b \/ rect_left a >= rect_right b.
Proof.
  unfold check_collision. rewrite !Z.geb_leb.
  repeat match goal with
         | |- context [?x <=? ?y] => destruct (Z.leb_spec x y)
         end; split; intros; try reflexivity; try discriminate; lia.
Qed.

Lemma check_collision_sym a b : check_collision a b = check_collision b a.
Proof.
  destruct (check_collision a b) eqn:Hab, (check_collision b a) eqn:Hba;
    try reflexivity; exfalso.
  - apply check_collision_false_iff in Hba.
    assert (check_collision a b = false) as E
      by (apply check_collision_false_iff; lia).
    congruence.
  - apply check_collision_false_iff in Hab.
    assert (check_collision b a = false) as E
      by (apply check_collision_false_iff; lia).
    congruence.
Qed.

(** C3.  [check_collision a b] is false exactly when
    [a.bottom <= b.top], or [a.top >= b.bottom], or [a.right <= b.left], or
    [a.left >= b.right], with [right = x + w] and [bottom = y + h] (the
    rectangles being such that these sums fit in an [int]); rectangles that
    only share a boundary edge do not intersect; and the predicate is
    symmetric. *)
Theorem check_collision_spec (a b : SDL_Rect) :
  rect_fits a -> rect_fits b ->
  (check_collision a b = false <->
     bottom_of a <= rect_y b \/ rect_y a >= bottom_of b \/
     right_of a <= rect_x b \/ rect_x a >= right_of b)
  /\ (right_of a = rect_x b \/ rect_x a = right_of b \/
      bottom_of a = rect_y b \/ rect_y a = bottom_of b ->
      check_collision a b = false)
  /\ check_collision a b = check_collision b a.
Proof.
  intros [Har Hab] [Hbr Hbb].
  pose proof (check_collision_false_iff a b) as H.
  rewrite (rect_right_exact a), (rect_right_exact b),
          (rect_bottom_exact a), (rect_bottom_exact b) in H by assumption.
  unfold rect_left, rect_top in H.
  split; [exact H|]. split.
  - intros Hedge. apply H. lia.
  - apply check_collision_sym.
Qed.

Lemma check_collision_spec_witness :
  check_collision (mkRect 200 300 40 30) (mkRect 240 0 60 400) = false.
Proof.
  refine (proj1 (proj2 (check_collision_spec (mkRect 200 300 40 30)
                          (mkRect 240 0 60 400) _ _)) (or_introl eq_refl));
    repeat split; discriminate.
Defined.

(** ** Loops *)

Lemma for_loop_ind (P : nat -> Game -> Prop) body n : forall i g,
  P i g ->
  (forall j h, (i <= j < i + n)%nat -> P j h -> P (S j) (body j h)) ->
  P (i + n)%nat (for_loop n i body g).
Proof.
  induction n as [|n IH]; intros i g H0 Hstep; simpl.
  - replace (i + 0)%nat with i by lia. exact H0.
  - replace (i + S n)%nat with (S i + n)%nat by lia.
    apply IH.
    + apply Hstep; [lia | exact H0].
    + intros j h Hj. apply Hstep. lia.
Qed.

Lemma slot_after_irrelevant b p : slot_relevant p = false -> slot_after b p = p.
Proof. unfold slot_after. intros ->. reflexivity. Qed.

Lemma update_pipe_eq i g p :
  pipes g !! i = Some p ->
  let b := bird_rect (bird g) in
  update_pipe i g =
  mkGame (bird g) (<[i := slot_after b p]> (pipes g)) (next_pipe g)
         (game_over g || slot_hit b p)
         (if slot_scored b p then int_add (score g) 1 else score g)
         (last_pipe_time g).
Proof.
  intros Hp b. unfold update_pipe. rewrite Hp.
  unfold slot_hit, slot_scored, slot_after, slot_relevant. subst b.
  destruct (SCREEN_WIDTH + 100 <? pipe_x p); simpl.
  - rewrite list_insert_id by exact Hp. rewrite orb_false_r.
    destruct g; reflexivity.
  - destruct (pipe_scores (bird_rect (bird g)) (move_pipe p)); simpl.
    + destruct (pipe_hits _ _); simpl; unfold set_game_over, set_score, set_pipe, set_pipes; simpl;
        rewrite ?orb_true_r, ?orb_false_r; reflexivity.
    + destruct (pipe_hits _ _); simpl; unfold set_game_over, set_score, set_pipe, set_pipes; simpl;
        rewrite ?orb_true_r, ?orb_false_r; reflexivity.
Qed.

Lemma update_pipe_none i g : pipes g !! i = None -> update_pipe i g = g.
Proof. unfold update_pipe. intros ->. reflexivity. Qed.

Lemma update_pipes_upto n g :
  let b := bird_rect (bird g) in
  let ps := pipes g in
  for_loop n 0 update_pipe g =
  mkGame (bird g) ((slot_after b <$> take n ps) ++ drop n ps) (next_pipe g)
         (game_over g || existsb (slot_hit b) (take n ps))
         (score_over b (take n ps) (score g))
         (last_pipe_time g).
Proof.
  intros b ps.
  apply (for_loop_ind (fun j h =>
    h = mkGame (bird g) ((slot_after b <$> take j ps) ++ drop j ps) (next_pipe g)
         (game_over g || existsb (slot_hit b) (take j ps))
         (score_over b (take j ps) (score g))
         (last_pipe_time g)) update_pipe n 0 g).
  - simpl. rewrite orb_false_r. subst ps. destruct g; reflexivity.
  - intros j h _ ->.
    destruct (ps !! j) as [p|] eqn:Hj.
    + assert (Hlen : length (slot_after b <$> take j ps) = j).
      { rewrite length_fmap, length_take. apply lookup_lt_Some in Hj. lia. }
      rewrite (update_pipe_eq j _ p); simpl.
      * rewrite (take_S_r _ _ _ Hj), (drop_S _ _ _ Hj).
        rewrite fmap_app, existsb_app. unfold score_over. rewrite fold_left_app. simpl.
        rewrite orb_false_r, orb_assoc.
        f_equal.
        rewrite <- Hlen at 1. rewrite insert_app_r_alt by lia.
        rewrite Nat.sub_diag. simpl. rewrite <- app_assoc. reflexivity.
      * rewrite lookup_app_r by lia. rewrite Hlen, Nat.sub_diag.
        rewrite (drop_S _ _ _ Hj). reflexivity.
    + rewrite update_pipe_none.
      * apply lookup_ge_None in Hj.
        rewrite !take_ge, !drop_ge by lia. reflexivity.
      * simpl. apply lookup_ge_None. apply lookup_ge_None in Hj.
        rewrite length_app, length_fmap, length_take, length_drop. lia.
Qed.

Lemma main_loop_reachable fs : forall l, reachable l -> reachable (main_loop fs l).
Proof.
  induction fs as [|f fs IH]; intros l Hl; simpl; [exact Hl|].
  destruct (quit l) eqn:Hq; [exact Hl|].
  apply IH, reachable_step; assumption.
Qed.

(** ** update_game *)

Lemma update_pipes_eq g :
  let b := bird_rect (bird g) in
  let ps := pipes g in
  let n := Z.to_nat MAX_PIPES in
  update_pipes g =
  mkGame (bird g) ((slot_after b <$> take n ps) ++ drop n ps) (next_pipe g)
         (game_over g || existsb (slot_hit b) (take n ps))
         (score_over b (take n ps) (score g))
         (last_pipe_time g).
Proof. apply update_pipes_upto. Qed.

Lemma spawn_pipe_bird now r g : bird (spawn_pipe now r g) = bird g.
Proof. unfold spawn_pipe. destruct (_ <? _); reflexivity. Qed.

Lemma spawn_pipe_score now r g : score (spawn_pipe now r g) = score g.
Proof. unfold spawn_pipe. destruct (_ <? _); reflexivity. Qed.

Lemma spawn_pipe_game_over now r g :
  game_over (spawn_pipe now r g) = game_over g.
Proof. unfold spawn_pipe. destruct (_ <? _); reflexivity. Qed.

Lemma spawn_pipe_length now r g :
  length (pipes (spawn_pipe now r g)) = length (pipes g).
Proof.
  unfold spawn_pipe. destruct (_ <? _); [|reflexivity].
  simpl. apply length_insert.
Qed.

Create Rewrite HintDb spawn.
#[local] Hint Rewrite spawn_pipe_bird spawn_pipe_score spawn_pipe_game_over
  spawn_pipe_length : spawn.

(** The spawn writes no slot but [next_pipe], and that one only when the
    spawn time has passed. *)
Lemma spawn_pipe_lookup now r g i :
  pipes (spawn_pipe now r g) !! i <> pipes g !! i ->
  PIPE_SPAWN_TIME < uint32 (now - last_pipe_time g) /\ i = Z.to_nat (next_pipe g).
Proof.
  unfold spawn_pipe. destruct (Z.ltb_spec PIPE_SPAWN_TIME (uint32 (now - last_pipe_time g))) as [Hlt|Hge].
  - simpl. intros Hne. split; [exact Hlt|].
    destruct (decide (Z.to_nat (next_pipe g) = i)) as [->|Hi]; [reflexivity|].
    rewrite list_lookup_insert_ne in Hne by exact Hi. congruence.
  - congruence.
Qed.

(** Lines 249-293, after the spawn: field by field. *)
Lemma update_rest_eq g0 :
  let b' := clamp_ceiling (move_bird (bird g0)) in
  let b := bird_rect b' in
  let ps := pipes g0 in
  let n := Z.to_nat MAX_PIPES in
  update_pipes (check_ground (update_bird g0)) =
  mkGame b' ((slot_after b <$> take n ps) ++ drop n ps) (next_pipe g0)
         ((game_over g0 || hits_ground b') || existsb (slot_hit b) (take n ps))
         (score_over b (take n ps) (score g0))
         (last_pipe_time g0).
Proof.
  intros b' b ps n. rewrite update_pipes_eq.
  unfold check_ground, update_bird. cbn [bird set_bird]. fold b'.
  destruct (hits_ground b'); simpl; rewrite ?orb_true_r, ?orb_false_r; reflexivity.
Qed.

(** The whole of [update_game], field by field. *)
Lemma update_game_eq now r g :
  let g0 := spawn_pipe now r g in
  let b' := clamp_ceiling (move_bird (bird g)) in
  let b := bird_rect b' in
  let ps := pipes g0 in
  let n := Z.to_nat MAX_PIPES in
  update_game now r g =
  mkGame b' ((slot_after b <$> take n ps) ++ drop n ps) (next_pipe g0)
         ((game_over g || hits_ground b') || existsb (slot_hit b) (take n ps))
         (score_over b (take n ps) (score g))
         (last_pipe_time g0).
Proof.
  intros g0 b' b ps n. unfold update_game. rewrite update_rest_eq.
  autorewrite with spawn. reflexivity.
Qed.

Lemma score_over_exact b l : forall s,
  in_int s -> s + Z.of_nat (length l) <= INT_MAX ->
  score_over b l s = s + count_if (slot_scored b) l.
Proof.
  induction l as [|p l IH]; intros s Hs Hmax; simpl.
  - lia.
  - unfold score_over in *. simpl in *. unfold in_int in *.
    destruct (slot_scored b p).
    + rewrite int_add_exact by (unfold in_int; lia).
      rewrite IH by lia. lia.
    + rewrite IH by lia. lia.
Qed.

Lemma count_if_bounds {A} (f : A -> bool) l :
  0 <= count_if f l <= Z.of_nat (length l).
Proof. induction l as [|a l IH]; simpl; [lia|]. destruct (f a); lia. Qed.

Lemma count_if_ext {A} (f h : A -> bool) l :
  (forall a, f a = h a) -> count_if f l = count_if h l.
Proof. intros E. induction l as [|a l IH]; simpl; [reflexivity|]. rewrite E, IH. reflexivity. Qed.

Lemma flips_same l : flips l l = 0.
Proof.
  induction l as [|p l IH]; simpl; [reflexivity|].
  rewrite IH. destruct (pipe_passed p); reflexivity.
Qed.

Lemma flips_map_take (f : Pipe -> Pipe) l : forall n,
  flips l ((f <$> take n l) ++ drop n l) =
  count_if (fun p => negb (pipe_passed p) && pipe_passed (f p)) (take n l).
Proof.
  induction l as [|p l IH]; intros [|n]; simpl; try reflexivity.
  - rewrite flips_same. destruct (pipe_passed p); reflexivity.
  - rewrite IH. reflexivity.
Qed.

Lemma slot_flip b p :
  negb (pipe_passed p) && pipe_passed (slot_after b p) = slot_scored b p.
Proof.
  unfold slot_after, slot_scored. destruct (slot_relevant p); simpl.
  - unfold pipe_scores. destruct p as [x gy [|] tr br]; simpl;
      [reflexivity | destruct (_ <? _); reflexivity].
  - destruct (pipe_passed p); reflexivity.
Qed.

Lemma update_game_lookup now r g i :
  (i < Z.to_nat MAX_PIPES)%nat ->
  pipes (update_game now r g) !! i =
  slot_after (bird_rect (bird (update_game now r g))) <$> pipes (spawn_pipe now r g) !! i.
Proof.
  intros Hi. rewrite update_game_eq. cbn [pipes bird].
  set (b := bird_rect _). set (ps := pipes _). set (n := Z.to_nat MAX_PIPES) in *.
  destruct (ps !! i) as [p|] eqn:Hp.
  - rewrite lookup_app_l.
    + rewrite list_lookup_fmap, lookup_take_lt by lia. rewrite Hp. reflexivity.
    + rewrite length_fmap, length_take. apply lookup_lt_Some in Hp. lia.
  - apply lookup_ge_None in Hp. simpl. apply lookup_ge_None.
    rewrite length_app, length_fmap, length_take, length_drop. lia.
Qed.

Lemma update_game_bird now r g :
  bird (update_game now r g) = clamp_ceiling (move_bird (bird g)).
Proof. rewrite update_game_eq. reflexivity. Qed.

Lemma update_game_rect_x now r g :
  rect_x (bird_rect (bird (update_game now r g))) = rect_x (bird_rect (bird g)).
Proof.
  rewrite update_game_bird. unfold clamp_ceiling.
  destruct (_ <? _); reflexivity.
Qed.

(** A slot that is unpassed afterwards counts no flip, whatever was there
    before. *)
Lemma flips_insert q qk : forall l l' k,
  l' !! k = Some qk -> pipe_passed qk = false ->
  flips (<[k := q]> l) l' = flips l l'.
Proof.
  induction l as [|p l IH]; intros [|p' l'] [|k] Hk Hqk; simpl in *;
    try reflexivity; try discriminate.
  - injection Hk as ->. rewrite Hqk, !andb_false_r. reflexivity.
  - rewrite (IH l' k Hk Hqk). reflexivity.
Qed.

(** In a state of the program, the pipe that [create_pipe] has just stored
    is not passed in the same update: the bird's box is at
    [SCREEN_WIDTH / 4]. *)
Lemma new_pipe_not_scored b r :
  rect_x b = SCREEN_WIDTH / 4 ->
  pipe_passed (slot_after b (new_pipe_for r)) = false.
Proof.
  intros Hb.
  assert (Hs : pipe_scores b (move_pipe (new_pipe_for r)) = false).
  { unfold pipe_scores, move_pipe, new_pipe_for. cbn [pipe_x pipe_passed].
    rewrite Hb. reflexivity. }
  unfold slot_after. rewrite Hs.
  destruct (slot_relevant (new_pipe_for r)); reflexivity.
Qed.

Lemma spawn_pipe_cases now r g :
  (PIPE_SPAWN_TIME < uint32 (now - last_pipe_time g) /\
   spawn_pipe now r g = set_last_pipe_time now (create_pipe r g))
  \/ spawn_pipe now r g = g.
Proof.
  unfold spawn_pipe. cbv zeta.
  destruct (Z.ltb_spec PIPE_SPAWN_TIME (uint32 (now - last_pipe_time g)));
    [left; split; [assumption | reflexivity] | right; reflexivity].
Qed.

Lemma flips_spawn now r g :
  well_formed g ->
  flips (pipes g) (pipes (update_game now r g)) =
  flips (pipes (spawn_pipe now r g)) (pipes (update_game now r g)).
Proof.
  intros (Hlen & Hnext & Hx & _).
  assert (Hk : (Z.to_nat (next_pipe g) < Z.to_nat MAX_PIPES)%nat)
    by (unfold MAX_PIPES in *; lia).
  pose proof (update_game_lookup now r g _ Hk) as Hlook.
  rewrite <- Hlen in Hk.
  destruct (spawn_pipe_cases now r g) as [[_ Hs]|Hs]; rewrite Hs in *;
    [|reflexivity].
  cbn [pipes set_last_pipe_time create_pipe set_next_pipe set_pipe set_pipes]
    in *.
  rewrite list_lookup_insert_eq in Hlook by exact Hk.
  symmetry. apply (flips_insert _ _ _ _ _ Hlook).
  apply new_pipe_not_scored.
  rewrite update_game_rect_x. exact Hx.
Qed.

(** A relevant slot in the range of [int] arithmetic: what the loop does
    to it, in exact integers. *)
Lemma slot_after_relevant b p :
  INT_MIN + PIPE_SPEED <= pipe_x p <= SCREEN_WIDTH + 100 ->
  slot_relevant p = true /\
  pipe_x (slot_after b p) = pipe_x p - PIPE_SPEED /\
  slot_scored b p =
    negb (pipe_passed p) && (pipe_x p - PIPE_SPEED + PIPE_WIDTH <? rect_x b) /\
  pipe_passed (slot_after b p) = pipe_passed p || slot_scored b p.
Proof.
  intros Hx. unfold INT_MIN, PIPE_SPEED, SCREEN_WIDTH in Hx.
  assert (Hrel : slot_relevant p = true).
  { unfold slot_relevant, SCREEN_WIDTH. apply negb_true_iff, Z.ltb_ge. lia. }
  assert (Hmove : pipe_x (move_pipe p) = pipe_x p - PIPE_SPEED).
  { unfold move_pipe. cbn [pipe_x]. apply int_sub_exact.
    int_arith. }
  assert (Hsc : pipe_scores b (move_pipe p) =
    negb (pipe_passed p) && (pipe_x p - PIPE_SPEED + PIPE_WIDTH <? rect_x b)).
  { unfold pipe_scores. rewrite Hmove.
    rewrite int_add_exact
      by int_arith.
    reflexivity. }
  unfold slot_after, slot_scored. rewrite Hrel, Hsc. cbn [andb].
  split; [reflexivity|]. split; [|split; [reflexivity|]].
  - destruct (negb _ && _); [unfold set_pipe_passed; cbn [pipe_x]|]; exact Hmove.
  - destruct (pipe_passed p) eqn:Hp; cbn [negb andb orb].
    + exact Hp.
    + destruct (_ <? _); [reflexivity | exact Hp].
Qed.

(** C2.  In one [update_game], a relevant slot (its [x] at most
    [SCREEN_WIDTH + 100] when the loop over the pipes reaches it) moves left
    by [PIPE_SPEED]; if it is unpassed and its right edge [x + 60] is then
    strictly left of the bird's box, it becomes passed and counts one point;
    a passed slot stays passed and counts nothing.  The score grows by
    exactly the number of slots that count, which is the number of slots
    whose [passed] goes from false to true; so it never decreases.  (The
    score is an [int] with room for the points of one frame.)  The slots
    are those the loop finds, the one [create_pipe] has just written being
    the new pipe; in a state of the program the count of the flips is the
    same from the slots before the update. *)
Theorem update_game_scoring (now r : Z) (g : Game) :
  in_int (score g) -> score g + MAX_PIPES <= INT_MAX ->
  let g0 := spawn_pipe now r g in
  let g' := update_game now r g in
  let b := bird_rect (bird g') in
  let n := Z.to_nat MAX_PIPES in
  (forall (i : nat) (p : Pipe),
     (i < n)%nat -> pipes g0 !! i = Some p ->
     INT_MIN + PIPE_SPEED <= pipe_x p <= SCREEN_WIDTH + 100 ->
     exists p', pipes g' !! i = Some p' /\
       pipe_x p' = pipe_x p - PIPE_SPEED /\
       (pipe_passed p = false -> pipe_x p' + PIPE_WIDTH < rect_x b ->
        pipe_passed p' = true /\ slot_scored b p = true) /\
       (pipe_passed p = false -> rect_x b <= pipe_x p' + PIPE_WIDTH ->
        pipe_passed p' = false /\ slot_scored b p = false) /\
       (pipe_passed p = true ->
        pipe_passed p' = true /\ slot_scored b p = false)) /\
  score g' = score g + count_if (slot_scored b) (take n (pipes g0)) /\
  count_if (slot_scored b) (take n (pipes g0)) = flips (pipes g0) (pipes g') /\
  score g <= score g' <= score g + flips (pipes g0) (pipes g') /\
  rect_x b = rect_x (bird_rect (bird g)) /\
  (forall i : nat, pipes g0 !! i <> pipes g !! i ->
     PIPE_SPAWN_TIME < uint32 (now - last_pipe_time g) /\
     i = Z.to_nat (next_pipe g)) /\
  (well_formed g -> score g' = score g + flips (pipes g) (pipes g')).
Proof.
  intros Hs Hmax g0 g' b n.
  assert (Hscore : score g' =
            score g + count_if (slot_scored b) (take n (pipes g0))).
  { subst g' b. rewrite update_game_bird. rewrite update_game_eq. cbn [score].
    apply score_over_exact; [exact Hs|].
    rewrite length_take. unfold MAX_PIPES in *. lia. }
  assert (Hflips : count_if (slot_scored b) (take n (pipes g0)) =
                   flips (pipes g0) (pipes g')).
  { subst g' b. rewrite update_game_bird. rewrite update_game_eq. cbn [pipes].
    rewrite flips_map_take. apply count_if_ext. intros p.
    symmetry. apply slot_flip. }
  pose proof (count_if_bounds (slot_scored b) (take n (pipes g0))) as Hb.
  split; [|split; [exact Hscore|split; [exact Hflips|split; [lia|split]]]].
  - intros i p Hi Hp Hx.
    exists (slot_after b p). split.
    + subst g' b. rewrite update_game_lookup by exact Hi.
      fold g0. rewrite Hp. reflexivity.
    + destruct (slot_after_relevant b p Hx) as (_ & Hx' & Hsc & Hpass).
      split; [exact Hx'|]. rewrite Hx', Hpass, Hsc.
      split; [|split]; intros Hp0; rewrite Hp0; cbn [negb andb orb].
      * intros Hlt. apply Z.ltb_lt in Hlt. rewrite Hlt. split; reflexivity.
      * intros Hlt. apply Z.ltb_ge in Hlt. rewrite Hlt. split; reflexivity.
      * split; reflexivity.
  - apply update_game_rect_x.
  - split; [intros i; apply spawn_pipe_lookup|].
    intros Hwf. unfold g'. rewrite (flips_spawn now r g Hwf).
    fold g0 g'. rewrite <- Hflips. exact Hscore.
Qed.

Lemma update_game_scoring_witness :
  in_int (score game_pipe_passing) /\
  score game_pipe_passing + MAX_PIPES <= INT_MAX /\
  flips (pipes (spawn_pipe 16 0 game_pipe_passing))
        (pipes (update_game 16 0 game_pipe_passing)) = 1 /\
  score (update_game 16 0 game_pipe_passing) =
  score game_pipe_passing
  + flips (pipes (spawn_pipe 16 0 game_pipe_passing))
          (pipes (update_game 16 0 game_pipe_passing)).
Proof.
  assert (H1 : in_int (score game_pipe_passing))
    by (vm_compute; split; discriminate).
  assert (H2 : score game_pipe_passing + MAX_PIPES <= INT_MAX)
    by (vm_compute; discriminate).
  split; [exact H1|]. split; [exact H2|].
  split; [vm_compute; reflexivity|].
  destruct (update_game_scoring 16 0 game_pipe_passing H1 H2)
    as (_ & Hs & Hf & _).
  rewrite <- Hf. exact Hs.
Defined.

(** ** Slots off the screen *)

Lemma existsb_lookup {A} (h : A -> bool) (l : list A) :
  existsb h l = true -> exists j a, l !! j = Some a /\ h a = true.
Proof.
  induction l as [|a l IH]; simpl; [discriminate|].
  destruct (h a) eqn:Ha; simpl.
  - intros _. exists 0%nat, a. split; [reflexivity | exact Ha].
  - intros H. destruct (IH H) as (j & a' & Hj & Ha').
    exists (S j), a'. split; assumption.
Qed.

Lemma score_over_changed b l : forall s,
  score_over b l s <> s ->
  exists j p, l !! j = Some p /\ slot_scored b p = true.
Proof.
  induction l as [|p l IH]; intros s; unfold score_over; simpl.
  - congruence.
  - destruct (slot_scored b p) eqn:Hp.
    + intros _. exists 0%nat, p. split; [reflexivity | exact Hp].
    + intros H. destruct (IH s H) as (j & q & Hj & Hq).
      exists (S j), q. split; assumption.
Qed.

Lemma slot_relevant_le p : slot_relevant p = true -> pipe_x p <= SCREEN_WIDTH + 100.
Proof. unfold slot_relevant. intros H. apply negb_true_iff, Z.ltb_ge in H. exact H. Qed.

Lemma slot_relevant_gt p : SCREEN_WIDTH + 100 < pipe_x p -> slot_relevant p = false.
Proof. unfold slot_relevant. intros H. apply negb_false_iff, Z.ltb_lt. exact H. Qed.

(** Every slot after [update_game], also those past the array. *)
Lemma update_game_lookup_any now r g i p :
  pipes (spawn_pipe now r g) !! i = Some p ->
  pipes (update_game now r g) !! i = Some p \/
  pipes (update_game now r g) !! i =
    Some (slot_after (bird_rect (bird (update_game now r g))) p).
Proof.
  intros Hp.
  destruct (decide (i < Z.to_nat MAX_PIPES)%nat) as [Hi|Hi].
  - right. rewrite update_game_lookup by exact Hi. rewrite Hp. reflexivity.
  - left. rewrite update_game_eq. cbn [pipes].
    set (ps := pipes _) in *. set (b := bird_rect _).
    assert (Hlen : (Z.to_nat MAX_PIPES < length ps)%nat)
      by (apply lookup_lt_Some in Hp; lia).
    rewrite lookup_app_r; rewrite length_fmap, length_take; [|lia].
    rewrite lookup_drop. rewrite <- Hp. f_equal. lia.
Qed.

Lemma render_pipe_offscreen p : SCREEN_WIDTH <= pipe_x p -> render_pipe p = [].
Proof.
  intros H. unfold render_pipe.
  replace (pipe_x p <? SCREEN_WIDTH) with false
    by (symmetry; apply Z.ltb_ge; exact H).
  rewrite andb_false_r. reflexivity.
Qed.

Lemma render_pipes_insert n : forall j ps i p q,
  ps !! i = Some p -> render_pipe p = [] -> render_pipe q = [] ->
  render_pipes n j (<[i := q]> ps) = render_pipes n j ps.
Proof.
  induction n as [|n IH]; intros j ps i p q Hp Hrp Hrq; simpl; [reflexivity|].
  rewrite (IH (S j) ps i p q Hp Hrp Hrq). f_equal.
  destruct (decide (i = j)) as [->|Hij].
  - rewrite list_lookup_insert_eq by (apply lookup_lt_Some in Hp; exact Hp).
    rewrite Hp, Hrp, Hrq. reflexivity.
  - rewrite list_lookup_insert_ne by exact Hij. reflexivity.
Qed.

Lemma reset_game_lookup now g i :
  pipes (reset_game now g) !! i =
  (if decide (i < Z.to_nat MAX_PIPES)%nat
   then set_pipe_x (sint32 (SCREEN_WIDTH * 2)) else id) <$> pipes g !! i.
Proof.
  unfold reset_game. cbn [pipes set_last_pipe_time set_score set_game_over].
  set (g1 := set_bird _ g).
  change (pipes g) with (pipes g1). generalize g1. clear g1. intros g1.
  generalize (Z.to_nat MAX_PIPES). intros n.
  pose proof (for_loop_ind (fun j h => forall i,
    pipes h !! i = (if decide (i < j)%nat
      then set_pipe_x (sint32 (SCREEN_WIDTH * 2)) else id) <$> pipes g1 !! i)
    reset_pipe n 0 g1) as H.
  simpl in H. apply H; clear H.
  - intros k. destruct (decide (k < 0)%nat); [lia|].
    destruct (pipes g1 !! k); reflexivity.
  - intros j h _ IH k. unfold reset_pipe. cbn [pipes set_pipes].
    rewrite list_lookup_alter. rewrite !IH.
    destruct (decide (j = k)) as [->|Hjk].
    + destruct (decide (k < k)%nat); [lia|].
      destruct (decide (k < S k)%nat); [|lia].
      destruct (pipes g1 !! k); reflexivity.
    + destruct (decide (k < j)%nat), (decide (k < S j)%nat); try lia; reflexivity.
Qed.

Lemma reset_game_length now g :
  length (pipes (reset_game now g)) = length (pipes g).
Proof.
  unfold reset_game. cbn [pipes set_last_pipe_time set_score set_game_over].
  set (g1 := set_bird _ g). change (pipes g) with (pipes g1).
  generalize g1 (Z.to_nat MAX_PIPES). clear g1. intros g1 n.
  pose proof (for_loop_ind (fun _ h => length (pipes h) = length (pipes g1))
                           reset_pipe n 0 g1) as H.
  apply H; [reflexivity|].
  intros j h _ IH. unfold reset_pipe. cbn [pipes set_pipes].
  rewrite length_alter. exact IH.
Qed.

Lemma map_take_insert (f : Pipe -> Pipe) q : forall l i n,
  f q = q ->
  (f <$> take n (<[i := q]> l)) ++ drop n (<[i := q]> l) =
  <[i := q]> ((f <$> take n l) ++ drop n l).
Proof.
  intros l i n Hq. revert i n.
  induction l as [|a l IH]; intros [|i] [|n]; simpl; try reflexivity.
  - rewrite Hq. reflexivity.
  - rewrite IH. reflexivity.
Qed.

Lemma existsb_take_insert (h : Pipe -> bool) p q : forall l i n,
  l !! i = Some p -> h p = h q ->
  existsb h (take n (<[i := q]> l)) = existsb h (take n l).
Proof.
  intros l i n Hp Hpq. revert i n Hp.
  induction l as [|a l IH]; intros [|i] [|n] Hp; simpl in *;
    try reflexivity; try discriminate.
  - injection Hp as ->. rewrite Hpq. reflexivity.
  - rewrite (IH i n Hp). reflexivity.
Qed.

Lemma score_over_take_insert b p q : forall l i n s,
  l !! i = Some p -> slot_scored b p = slot_scored b q ->
  score_over b (take n (<[i := q]> l)) s = score_over b (take n l) s.
Proof.
  intros l i n s Hp Hpq. revert i n s Hp. unfold score_over.
  induction l as [|a l IH]; intros [|i] [|n] s Hp; simpl in *;
    try reflexivity; try discriminate.
  - injection Hp as ->. rewrite Hpq. reflexivity.
  - apply (IH i n _ Hp).
Qed.

Lemma slot_scored_irrelevant b p : slot_relevant p = false -> slot_scored b p = false.
Proof. unfold slot_scored. intros ->. reflexivity. Qed.

Lemma slot_hit_irrelevant b p : slot_relevant p = false -> slot_hit b p = false.
Proof. unfold slot_hit. intros ->. reflexivity. Qed.

(** C10.  A slot whose [x] is above [SCREEN_WIDTH + 100] when the loop over
    the pipes reaches it is skipped: [update_game] leaves it as it is, the
    body of the loop changes nothing at it, and [render_game] draws nothing
    for it.  When the game ends or the score changes in that update, a
    relevant slot (another one) did it; and whatever the skipped slot holds
    (its boxes, its flag), the update gives the same result.  After
    [reset_game] every slot is such a slot: its [x] is [2 * SCREEN_WIDTH] and
    the rest of it is what it was. *)
Theorem offscreen_slot_inert (now r : Z) (g : Game) (i : nat) (p : Pipe) :
  let g0 := spawn_pipe now r g in
  let g' := update_game now r g in
  let b := bird_rect (bird g') in
  pipes g0 !! i = Some p -> SCREEN_WIDTH + 100 < pipe_x p ->
  pipes g' !! i = Some p
  /\ (forall h, pipes h !! i = Some p -> update_pipe i h = h)
  /\ render_pipe p = []
  /\ (game_over g' = true ->
      game_over g = true \/ hits_ground (bird g') = true \/
      exists j q, j <> i /\ pipes g0 !! j = Some q /\
                  pipe_x q <= SCREEN_WIDTH + 100 /\
                  pipe_hits b (slot_after b q) = true)
  /\ (score g' <> score g ->
      exists j q, j <> i /\ pipes g0 !! j = Some q /\
                  pipe_x q <= SCREEN_WIDTH + 100 /\
                  pipe_scores b (move_pipe q) = true)
  /\ (forall q, SCREEN_WIDTH + 100 < pipe_x q ->
      update_pipes (check_ground (update_bird (set_pipe i q g0))) =
        set_pipe i q g'
      /\ forall last_score,
           render_game last_score (set_pipe i q g') = render_game last_score g')
  /\ (forall t g1 (j : nat) q,
        (j < Z.to_nat MAX_PIPES)%nat -> pipes (reset_game t g1) !! j = Some q ->
        pipe_x q = 2 * SCREEN_WIDTH /\ SCREEN_WIDTH + 100 < pipe_x q /\
        exists q0, pipes g1 !! j = Some q0 /\
                   q = set_pipe_x (2 * SCREEN_WIDTH) q0).
Proof.
  intros g0 g' b Hp Hx.
  pose proof (slot_relevant_gt p Hx) as Hrel.
  assert (Hb : bird g' = clamp_ceiling (move_bird (bird g)))
    by apply update_game_bird.
  assert (Hsame : pipes g' !! i = Some p).
  { unfold g'. destruct (update_game_lookup_any now r g i p Hp) as [H|H]; [exact H|].
    rewrite H. f_equal. apply slot_after_irrelevant, Hrel. }
  assert (Hne : forall j q, pipes g0 !! j = Some q ->
                            slot_relevant q = true -> j <> i).
  { intros j q Hq Hr ->. fold g0 in Hp. congruence. }
  split; [exact Hsame|]. split; [|split; [|split; [|split; [|split]]]].
  - intros h Hh. rewrite (update_pipe_eq i h p Hh).
    rewrite slot_after_irrelevant, slot_hit_irrelevant,
            slot_scored_irrelevant by exact Hrel.
    rewrite list_insert_id by exact Hh. rewrite orb_false_r.
    destruct h; reflexivity.
  - apply render_pipe_offscreen. unfold SCREEN_WIDTH in *. lia.
  - unfold b. rewrite Hb. subst g'. rewrite update_game_eq. cbn [game_over].
    fold g0. set (b' := clamp_ceiling _). intros H.
    apply orb_true_iff in H as [H|H].
    + apply orb_true_iff in H as [H|H]; [left|right; left]; exact H.
    + right; right. apply existsb_lookup in H as (j & q & Hj & Hq).
      apply lookup_take_Some in Hj as [Hj _].
      unfold slot_hit in Hq. apply andb_true_iff in Hq as [Hr Hq].
      exists j, q. split; [exact (Hne j q Hj Hr)|]. split; [exact Hj|].
      split; [apply slot_relevant_le, Hr | exact Hq].
  - unfold b. rewrite Hb. subst g'. rewrite update_game_eq. cbn [score].
    fold g0. intros H.
    apply score_over_changed in H as (j & q & Hj & Hq).
    apply lookup_take_Some in Hj as [Hj _].
    unfold slot_scored in Hq. apply andb_true_iff in Hq as [Hr Hq].
    exists j, q. split; [exact (Hne j q Hj Hr)|]. split; [exact Hj|].
    split; [apply slot_relevant_le, Hr | exact Hq].
  - intros q Hq. pose proof (slot_relevant_gt q Hq) as Hrq. split.
    + rewrite update_rest_eq.
      change (update_game now r g) with
        (update_pipes (check_ground (update_bird g0))) in g'.
      subst g'. rewrite update_rest_eq.
      unfold set_pipe, set_pipes. cbn [bird pipes next_pipe game_over score last_pipe_time].
      rewrite (map_take_insert _ q) by (apply slot_after_irrelevant, Hrq).
      rewrite (existsb_take_insert _ p q) by
        (try exact Hp; rewrite !slot_hit_irrelevant by assumption; reflexivity).
      rewrite (score_over_take_insert _ p q) by
        (try exact Hp; rewrite !slot_scored_irrelevant by assumption; reflexivity).
      reflexivity.
    + intros last_score. unfold render_game, set_pipe, set_pipes.
      cbn [bird pipes next_pipe game_over score last_pipe_time].
      rewrite (render_pipes_insert _ _ _ i p q Hsame); [reflexivity| |];
        apply render_pipe_offscreen; unfold SCREEN_WIDTH in *; lia.
  - intros t g1 j q Hj Hq. rewrite reset_game_lookup in Hq.
    destruct (decide (j < Z.to_nat MAX_PIPES)%nat); [|lia].
    destruct (pipes g1 !! j) as [q0|] eqn:Hq0; [|discriminate].
    injection Hq as <-. cbn [pipe_x set_pipe_x].
    split; [reflexivity|]. split; [vm_compute; reflexivity|].
    exists q0. split; reflexivity.
Qed.

Lemma offscreen_slot_inert_witness :
  pipes (update_game 16 0 (reset_game 0 initial_game)) !! 0%nat =
  Some (set_pipe_x 1600 zero_pipe).
Proof.
  apply (offscreen_slot_inert 16 0 (reset_game 0 initial_game) 0
                              (set_pipe_x 1600 zero_pipe)).
  - vm_compute. reflexivity.
  - vm_compute. reflexivity.
Defined.

(** ** The bird *)

Lemma int_of_float_trunc f :
  int_of_float f <> INT_MIN ->
  exists q, SF2Q f = Some q /\ int_of_float f = Qtrunc q.
Proof.
  unfold int_of_float, SFtrunc.
  destruct (SF2Q f) as [q|]; simpl; [|congruence].
  destruct (_ && _); [|congruence].
  intros _. exists q. split; reflexivity.
Qed.

Lemma Qtrunc_floor_nonneg q : (0 <= q)%Q -> Qtrunc q = Qfloor q.
Proof.
  destruct q as [n d]. unfold Qle, Qtrunc, Qfloor. simpl. intros H.
  apply Z.quot_div_nonneg; lia.
Qed.

Lemma Qfloor_neg q : (q < 0)%Q -> Qfloor q < 0.
Proof.
  destruct q as [n d]. unfold Qlt, Qfloor. simpl. intros H.
  apply Z.div_lt_upper_bound; lia.
Qed.

Lemma clamp_ceiling_rect_y b : 0 <= rect_y (bird_rect (clamp_ceiling b)).
Proof.
  unfold clamp_ceiling.
  destruct (Z.ltb_spec (rect_y (bird_rect b)) 0); simpl; lia.
Qed.

(** C1, as the code has it.  After [update_game] the bird's box [y] is the
    bird's [y] with its fractional part discarded (rounded toward zero, the
    cast [(int)bird.y]); it is the floor of [y] exactly when [y] is not
    negative. *)
Theorem bird_box_y_truncates (now r : Z) (g : Game) :
  let b' := bird (update_game now r g) in
  exists q : Q,
    SF2Q (bird_y b') = Some q /\
    rect_y (bird_rect b') = Qtrunc q /\
    (rect_y (bird_rect b') = Qfloor q <-> (0 <= q)%Q).
Proof.
  intros b'.
  assert (Hnn : 0 <= rect_y (bird_rect b')).
  { unfold b'. rewrite update_game_bird. apply clamp_ceiling_rect_y. }
  assert (H : exists q, SF2Q (bird_y b') = Some q /\
                        rect_y (bird_rect b') = Qtrunc q).
  { unfold b' in *. rewrite update_game_bird in *. unfold clamp_ceiling in *.
    destruct (Z.ltb_spec (rect_y (bird_rect (move_bird (bird g)))) 0) as [Hlt|Hge].
    - exists 0%Q. split; reflexivity.
    - cbn [move_bird bird_rect bird_y set_rect_y rect_y] in *.
      apply int_of_float_trunc. unfold INT_MIN. lia. }
  destruct H as (q & Hq & Ht). exists q. split; [exact Hq|]. split; [exact Ht|].
  split.
  - intros Hf. destruct (Qlt_le_dec q 0) as [Hneg|Hpos]; [|exact Hpos].
    apply Qfloor_neg in Hneg. lia.
  - intros Hpos. rewrite Ht. apply Qtrunc_floor_nonneg, Hpos.
Qed.

(** C1, the counterexample.  A player who keeps jumping from the start
    brings the bird, in 40 frames, to [y] about [-0.4] without reaching the
    clamp: the box [y] is 0 and the floor of [y] is -1. *)
Lemma bird_box_y_not_floor :
  let l := main_loop (climb_frames ++ [jump_frame 640]) (start_game 0) in
  let g := game_jumping_at_ceiling in
  let b' := bird (update_game 640 0 g) in
  reachable l /\
  game l = update_game 640 0 g /\
  game_over g = false /\
  rect_y (bird_rect b') = 0 /\
  SFfloor (bird_y b') = Some (-1) /\
  SFfloor (bird_y b') <> Some (rect_y (bird_rect b')).
Proof.
  split; [apply main_loop_reachable, reachable_start|].
  vm_compute. repeat split; discriminate.
Qed.

(** C4.  When the box [y] computed from the moved bird is below 0,
    [update_game] leaves the bird with [y], box [y] and velocity all 0; and
    with the bird's box height [BIRD_HEIGHT] the ground test is false, so
    that [game_over] is set in this update only by a pipe. *)
Theorem ceiling_clamp (now r : Z) (g : Game) :
  let g' := update_game now r g in
  let b := bird_rect (bird g') in
  rect_y (bird_rect (move_bird (bird g))) < 0 ->
  bird_y (bird g') = S754_zero false
  /\ SFis (bird_y (bird g')) 0
  /\ rect_y b = 0
  /\ bird_velocity (bird g') = S754_zero false
  /\ SFis (bird_velocity (bird g')) 0
  /\ (rect_h (bird_rect (bird g)) = BIRD_HEIGHT ->
      hits_ground (bird g') = false
      /\ game_over g' =
         game_over g ||
         existsb (slot_hit b)
                 (take (Z.to_nat MAX_PIPES) (pipes (spawn_pipe now r g)))).
Proof.
  intros g' b Hneg.
  assert (Hb : bird g' =
               mkBird (bird_x (bird g)) (S754_zero false) (S754_zero false)
                      (set_rect_y 0 (bird_rect (bird g)))).
  { unfold g'. rewrite update_game_bird. unfold clamp_ceiling.
    apply Z.ltb_lt in Hneg. rewrite Hneg. reflexivity. }
  assert (Hg : rect_h (bird_rect (bird g)) = BIRD_HEIGHT ->
               hits_ground (bird g') = false).
  { intros Hh. rewrite Hb. unfold hits_ground.
    cbn [bird_rect rect_y rect_h set_rect_y]. rewrite Hh. reflexivity. }
  unfold b.
  split; [rewrite Hb; reflexivity|]. split; [rewrite Hb; reflexivity|].
  split; [rewrite Hb; reflexivity|]. split; [rewrite Hb; reflexivity|].
  split; [rewrite Hb; reflexivity|].
  intros Hh. specialize (Hg Hh). split; [exact Hg|].
  unfold g' in *. rewrite update_game_bird in *.
  rewrite update_game_eq. cbn [game_over]. rewrite Hg, orb_false_r.
  reflexivity.
Qed.

Lemma ceiling_clamp_witness :
  let g := update_game 640 0 game_jumping_at_ceiling in
  rect_y (bird_rect (move_bird (bird g))) < 0 /\
  rect_y (bird_rect (bird (update_game 656 0 g))) = 0.
Proof.
  assert (H : rect_y (bird_rect (move_bird
                (bird (update_game 640 0 game_jumping_at_ceiling)))) < 0)
    by (vm_compute; reflexivity).
  split; [exact H|].
  exact (proj1 (proj2 (proj2 (ceiling_clamp 656 0 _ H)))).
Defined.

(** C5.  When after [update_game] the bird's box [y] plus its height is
    above [SCREEN_HEIGHT - 20], [game_over] is true. *)
Theorem ground_check (now r : Z) (g : Game) :
  let g' := update_game now r g in
  let box := bird_rect (bird g') in
  in_int (rect_y box + rect_h box) ->
  rect_y box + rect_h box > SCREEN_HEIGHT - 20 ->
  game_over g' = true.
Proof.
  intros g' box Hfit Hgt.
  assert (Hg : hits_ground (bird g') = true).
  { unfold hits_ground. fold box. rewrite int_add_exact by exact Hfit.
    apply Z.ltb_lt. change (int_sub SCREEN_HEIGHT 20) with (SCREEN_HEIGHT - 20). lia. }
  unfold g' in *. rewrite update_game_bird in Hg.
  rewrite update_game_eq. cbn [game_over]. rewrite Hg, orb_true_r. reflexivity.
Qed.

Lemma ground_check_witness :
  rect_y (bird_rect (bird (update_game 16 0 game_bird_low))) = 570 /\
  game_over (update_game 16 0 game_bird_low) = true.
Proof.
  split; [vm_compute; reflexivity|].
  apply (ground_check 16 0 game_bird_low).
  - vm_compute. split; discriminate.
  - vm_compute. reflexivity.
Defined.

(** ** create_pipe *)




(** ** reset_game *)

(** C6.  After [reset_game], whatever the state before: the game is not
    over, the score is 0, the bird is at [(SCREEN_WIDTH/4, SCREEN_HEIGHT/2)]
    with velocity 0 and the box [(200, 300, 40, 30)], each of the
    [MAX_PIPES] slots has [x = 2 * SCREEN_WIDTH], which is off the screen,
    and [last_pipe_time] is the clock value. *)
Theorem reset_game_spec (now : Z) (g : Game) :
  length (pipes g) = Z.to_nat MAX_PIPES ->
  let g' := reset_game now g in
  game_over g' = false
  /\ score g' = 0
  /\ SFis (bird_x (bird g')) (inject_Z (SCREEN_WIDTH / 4))
  /\ SFis (bird_y (bird g')) (inject_Z (SCREEN_HEIGHT / 2))
  /\ SFis (bird_velocity (bird g')) 0
  /\ bird_rect (bird g') =
       mkRect (SCREEN_WIDTH / 4) (SCREEN_HEIGHT / 2) BIRD_WIDTH BIRD_HEIGHT
  /\ length (pipes g') = Z.to_nat MAX_PIPES
  /\ Forall (fun p => pipe_x p = 2 * SCREEN_WIDTH /\ SCREEN_WIDTH <= pipe_x p)
            (pipes g')
  /\ last_pipe_time g' = now.
Proof.
  intros Hlen g'.
  assert (Hlook : forall i p, pipes g' !! i = Some p ->
                              pipe_x p = 2 * SCREEN_WIDTH).
  { intros i p Hp. unfold g' in Hp. rewrite reset_game_lookup in Hp.
    assert (i < Z.to_nat MAX_PIPES)%nat as Hi.
    { rewrite <- Hlen. destruct (pipes g !! i) eqn:E; [|discriminate].
      apply lookup_lt_Some in E. exact E. }
    destruct (decide (i < Z.to_nat MAX_PIPES)%nat); [|lia].
    destruct (pipes g !! i); [|discriminate].
    injection Hp as <-. reflexivity. }
  split; [reflexivity|]. split; [reflexivity|].
  split; [vm_compute; reflexivity|]. split; [vm_compute; reflexivity|].
  split; [vm_compute; reflexivity|]. split; [reflexivity|].
  split; [|split; [|reflexivity]].
  - unfold g'. rewrite reset_game_length. exact Hlen.
  - apply Forall_lookup. intros i p Hp.
    rewrite (Hlook i p Hp). split; [reflexivity | vm_compute; discriminate].
Qed.

Lemma reset_game_spec_witness :
  Forall (fun p => pipe_x p = 2 * SCREEN_WIDTH /\ SCREEN_WIDTH <= pipe_x p)
         (pipes (reset_game 77 game_ended)).
Proof.
  assert (H : length (pipes game_ended) = Z.to_nat MAX_PIPES)
    by (vm_compute; reflexivity).
  exact (proj1 (proj2 (proj2 (proj2 (proj2 (proj2 (proj2 (proj2
           (reset_game_spec 77 game_ended H))))))))).
Defined.

(** ** The events *)

Lemma handle_event_no_jump l e now :
  is_jump e = false -> game (handle_event l (e, now)) = game l.
Proof.
  destruct e as [|[]|[]|]; simpl; intros H; try reflexivity; discriminate.
Qed.

Lemma handle_event_jump l e now :
  is_jump e = true ->
  game (handle_event l (e, now)) = jump_or_restart now (game l).
Proof.
  destruct e as [|[]|[]|]; simpl; intros H; try reflexivity; discriminate.
Qed.

Lemma poll_events_no_jump evs : forall l,
  Forall (fun ev => is_jump (fst ev) = false) evs ->
  game (fold_left handle_event evs l) = game l.
Proof.
  induction evs as [|[e now] evs IH]; intros l H; simpl; [reflexivity|].
  inversion H as [|? ? He Hevs]; subst. simpl in He.
  rewrite IH by exact Hevs. apply handle_event_no_jump, He.
Qed.

(** The events of one iteration, for a game that is not over: it stays so,
    and once a jump signal has been handled the velocity is [JUMP_FORCE]. *)
Lemma poll_events_velocity evs : forall l,
  game_over (game l) = false ->
  game_over (game (fold_left handle_event evs l)) = false /\
  (Exists (fun ev => is_jump (fst ev) = true) evs \/
   bird_velocity (bird (game l)) = float_of_double JUMP_FORCE ->
   bird_velocity (bird (game (fold_left handle_event evs l))) =
     float_of_double JUMP_FORCE).
Proof.
  induction evs as [|[e now] evs IH]; intros l Hover; simpl.
  - split; [exact Hover|]. intros [Hex|Hv]; [inversion Hex | exact Hv].
  - destruct (is_jump e) eqn:He.
    + assert (Hg : game (handle_event l (e, now)) =
                   set_bird (set_bird_velocity (float_of_double JUMP_FORCE)
                                               (bird (game l))) (game l)).
      { rewrite handle_event_jump by exact He.
        unfold jump_or_restart. rewrite Hover. reflexivity. }
      destruct (IH (handle_event l (e, now))) as [Hover' Hvel].
      { rewrite Hg. exact Hover. }
      split; [exact Hover'|]. intros _. apply Hvel. right.
      rewrite Hg. reflexivity.
    + pose proof (handle_event_no_jump l e now He) as Hg.
      destruct (IH (handle_event l (e, now))) as [Hover' Hvel].
      { rewrite Hg. exact Hover. }
      split; [exact Hover'|]. intros [Hex|Hv]; apply Hvel.
      * left. inversion Hex as [? ? He'|? ? Hl]; subst; [|exact Hl].
        simpl in He'. congruence.
      * right. rewrite Hg. exact Hv.
Qed.

(** C7.  A jump signal handled while the game is not over assigns the
    velocity: it is [-8.0] after it, whatever it was before, and nothing
    else of the game changes; and so it is when all the events of an
    iteration that has a jump signal among them have been handled. *)
Theorem jump_sets_velocity (l : Loop) (e : SDL_Event) (now : Z) :
  is_jump e = true -> game_over (game l) = false ->
  let g' := game (handle_event l (e, now)) in
  bird_velocity (bird g') = float_of_double JUMP_FORCE
  /\ SFis (bird_velocity (bird g')) (-8)
  /\ g' = set_bird (set_bird_velocity (float_of_double JUMP_FORCE)
                                      (bird (game l))) (game l)
  /\ (forall v,
        let l0 := mkLoop (set_bird (set_bird_velocity v (bird (game l)))
                                   (game l)) (quit l) in
        game (handle_event l0 (e, now)) = g')
  /\ (forall evs,
        Exists (fun ev => is_jump (fst ev) = true) evs ->
        bird_velocity (bird (game (fold_left handle_event evs l))) =
          float_of_double JUMP_FORCE).
Proof.
  intros He Hover g'. unfold g'. rewrite handle_event_jump by exact He.
  unfold jump_or_restart. rewrite Hover.
  split; [reflexivity|]. split; [vm_compute; reflexivity|].
  split; [reflexivity|]. split.
  - intros v. rewrite handle_event_jump by exact He.
    unfold jump_or_restart. cbn [game game_over set_bird]. rewrite Hover.
    reflexivity.
  - intros evs Hex.
    apply (proj2 (poll_events_velocity evs l Hover)). left. exact Hex.
Qed.

Lemma jump_sets_velocity_witness :
  SFis (bird_velocity (bird game_bird_falling)) 5 /\
  SFis (bird_velocity
          (bird (game (handle_event (mkLoop game_bird_falling false)
                                    (SDL_KEYDOWN SDLK_SPACE, 16))))) (-8).
Proof.
  split; [vm_compute; reflexivity|].
  assert (H1 : is_jump (SDL_KEYDOWN SDLK_SPACE) = true) by reflexivity.
  assert (H2 : game_over (game (mkLoop game_bird_falling false)) = false)
    by reflexivity.
  exact (proj1 (proj2 (jump_sets_velocity (mkLoop game_bird_falling false)
                                          (SDL_KEYDOWN SDLK_SPACE) 16 H1 H2))).
Defined.

(** C9.  Once the game is over, iterations of the loop without jump signal
    leave the game as it is, each of them and any number of them; an event
    that changes it is a jump signal, and a jump signal calls
    [reset_game]. *)
Theorem game_over_frozen (l : Loop) :
  game_over (game l) = true ->
  (forall f, no_jump f -> game (main_iteration f l) = game l)
  /\ (forall fs, Forall no_jump fs -> game (main_loop fs l) = game l)
  /\ (forall e now, game (handle_event l (e, now)) <> game l ->
                    is_jump e = true)
  /\ (forall e now, is_jump e = true ->
                    game (handle_event l (e, now)) = reset_game now (game l)).
Proof.
  intros Hover.
  assert (Hone : forall f l0, game_over (game l0) = true -> no_jump f ->
                              game (main_iteration f l0) = game l0).
  { intros f l0 H0 Hf. unfold main_iteration.
    pose proof (poll_events_no_jump (frame_events f) l0 Hf) as Hg.
    rewrite Hg, H0. simpl. exact Hg. }
  split; [intros f; apply Hone, Hover|]. split; [|split].
  - intros fs. revert l Hover.
    induction fs as [|f fs IH]; intros l Hover Hfs; simpl; [reflexivity|].
    destruct (quit l); [reflexivity|].
    inversion Hfs as [|? ? Hf Hfs']; subst.
    rewrite IH.
    + apply Hone; assumption.
    + rewrite Hone; assumption.
    + exact Hfs'.
  - intros e now Hne. destruct (is_jump e) eqn:He; [reflexivity|].
    exfalso. apply Hne. apply handle_event_no_jump, He.
  - intros e now He. rewrite handle_event_jump by exact He.
    unfold jump_or_restart. rewrite Hover. reflexivity.
Qed.

Lemma game_over_frozen_witness :
  let f := mkFrame [(SDL_KEYDOWN SDLK_OTHER, 576); (SDL_OTHER_EVENT, 576)]
                   576 0 in
  let l := mkLoop game_ended false in
  game_over (game l) = true /\ game (main_iteration f l) = game l.
Proof.
  intros f l.
  assert (H : game_over (game l) = true) by (vm_compute; reflexivity).
  assert (Hf : no_jump f) by (repeat constructor).
  split; [exact H|].
  exact (proj1 (game_over_frozen l H) f Hf).
Defined.

(** ** The states of the program *)

Lemma reset_game_next_pipe now g : next_pipe (reset_game now g) = next_pipe g.
Proof.
  unfold reset_game. cbn [next_pipe set_last_pipe_time set_score set_game_over].
  set (g1 := set_bird _ g). change (next_pipe g) with (next_pipe g1).
  generalize g1 (Z.to_nat MAX_PIPES). clear g1. intros g1 n.
  apply (for_loop_ind (fun _ h => next_pipe h = next_pipe g1) reset_pipe n 0 g1);
    [reflexivity|].
  intros j h _ IH. exact IH.
Qed.

Lemma reset_game_bird now g : bird (reset_game now g) = reset_bird (bird g).
Proof.
  unfold reset_game. cbn [bird set_last_pipe_time set_score set_game_over].
  set (g1 := set_bird _ g). change (reset_bird (bird g)) with (bird g1).
  generalize g1 (Z.to_nat MAX_PIPES). clear g1. intros g1 n.
  apply (for_loop_ind (fun _ h => bird h = bird g1) reset_pipe n 0 g1);
    [reflexivity|].
  intros j h _ IH. exact IH.
Qed.

Lemma reset_game_well_formed now g :
  length (pipes g) = Z.to_nat MAX_PIPES -> 0 <= next_pipe g < MAX_PIPES ->
  well_formed (reset_game now g).
Proof.
  intros Hlen Hnext. unfold well_formed.
  rewrite reset_game_length, reset_game_next_pipe, reset_game_bird.
  repeat split; try assumption; try reflexivity; lia.
Qed.

Lemma next_pipe_ok r g :
  0 <= next_pipe g < MAX_PIPES -> 0 <= next_pipe (create_pipe r g) < MAX_PIPES.
Proof.
  unfold MAX_PIPES. intros H. unfold create_pipe.
  cbn [next_pipe set_next_pipe set_pipe set_pipes]. unfold int_mod, MAX_PIPES.
  rewrite int_add_exact by int_arith.
  rewrite Z.rem_mod_nonneg by lia.
  apply Z.mod_pos_bound. lia.
Qed.

Lemma update_game_well_formed now r g :
  well_formed g -> well_formed (update_game now r g).
Proof.
  intros (Hlen & Hnext & Hx & Hw & Hh). unfold well_formed.
  rewrite update_game_eq.
  cbn [pipes next_pipe bird].
  rewrite length_app, length_fmap, length_take, length_drop.
  rewrite spawn_pipe_length.
  assert (Hb : forall b, rect_x (bird_rect (clamp_ceiling (move_bird b))) = rect_x (bird_rect b)
                    /\ rect_w (bird_rect (clamp_ceiling (move_bird b))) = rect_w (bird_rect b)
                    /\ rect_h (bird_rect (clamp_ceiling (move_bird b))) = rect_h (bird_rect b)).
  { intros b. unfold clamp_ceiling. destruct (_ <? _); repeat split. }
  destruct (Hb (bird g)) as (-> & -> & ->).
  split; [lia|]. split; [|repeat split; assumption].
  unfold spawn_pipe. destruct (_ <? _); [|exact Hnext].
  cbn [next_pipe set_last_pipe_time]. apply next_pipe_ok, Hnext.
Qed.

Lemma handle_event_well_formed l ev :
  well_formed (game l) -> well_formed (game (handle_event l ev)).
Proof.
  intros Hwf. destruct ev as [e now].
  destruct (is_jump e) eqn:He.
  - rewrite handle_event_jump by exact He. unfold jump_or_restart.
    destruct (game_over (game l)).
    + destruct Hwf as (Hlen & Hnext & _).
      apply reset_game_well_formed; assumption.
    + exact Hwf.
  - rewrite handle_event_no_jump by exact He. exact Hwf.
Qed.

Lemma main_iteration_well_formed f l :
  well_formed (game l) -> well_formed (game (main_iteration f l)).
Proof.
  intros Hwf. unfold main_iteration.
  assert (H : well_formed (game (fold_left handle_event (frame_events f) l))).
  { revert l Hwf. induction (frame_events f) as [|ev evs IH]; intros l Hwf;
      simpl; [exact Hwf|].
    apply IH, handle_event_well_formed, Hwf. }
  destruct (negb _); [|exact H].
  cbn [game]. apply update_game_well_formed, H.
Qed.

Lemma reachable_well_formed l : reachable l -> well_formed (game l).
Proof.
  induction 1 as [now|f l Hl IH Hq].
  - apply reset_game_well_formed; [reflexivity | unfold MAX_PIPES; simpl; lia].
  - apply main_iteration_well_formed, IH.
Qed.

(** ** The digits of the score: ten iterations are enough for an [int] *)

Lemma draw_digits_enough (n : nat) : forall fuel s x,
  0 <= s <= INT_MAX -> s < 10 ^ Z.of_nat n -> (n <= fuel)%nat ->
  draw_digits fuel s x = draw_digits n s x.
Proof.
  induction n as [|n IH]; intros fuel s x Hs Hlt Hfuel.
  - assert (s = 0) as -> by (simpl in Hlt; lia).
    destruct fuel; reflexivity.
  - destruct fuel as [|fuel]; [lia|]. simpl.
    destruct (Z.ltb_spec 0 s) as [Hpos|_]; [|reflexivity].
    f_equal. f_equal.
    assert (Hq : 0 <= Z.quot s 10 <= s).
    { rewrite Z.quot_div_nonneg by lia. split.
      - apply Z.div_pos; lia.
      - apply Z.div_le_upper_bound; lia. }
    assert (Hd : int_div s 10 = Z.quot s 10).
    { apply sint32_id. int_arith. }
    rewrite Hd. apply IH; [lia| |lia].
    rewrite Z.quot_div_nonneg by lia.
    apply Z.div_lt_upper_bound; [lia|].
    rewrite Nat2Z.inj_succ, Z.pow_succ_r in Hlt by lia. exact Hlt.
Qed.

Lemma draw_digits_fuel fuel s x :
  0 <= s <= INT_MAX -> (score_digits_fuel <= fuel)%nat ->
  draw_digits fuel s x = draw_digits score_digits_fuel s x.
Proof.
  intros Hs Hfuel. apply draw_digits_enough; [exact Hs| |exact Hfuel].
  unfold INT_MAX in Hs. unfold score_digits_fuel.
  change (10 ^ Z.of_nat 10) with 10000000000. lia.
Qed.

(** ** Rounding of rationals *)

(** [Qtrunc] is rounding toward zero: the integer next to [q] on the side
    of zero. *)
Lemma Qtrunc_spec q :
  ((0 <= q)%Q -> (inject_Z (Qtrunc q) <= q)%Q /\ (q < inject_Z (Qtrunc q + 1))%Q)
  /\ ((q <= 0)%Q -> (inject_Z (Qtrunc q - 1) < q)%Q /\ (q <= inject_Z (Qtrunc q))%Q).
Proof.
  split; intros Hq.
  - rewrite Qtrunc_floor_nonneg by exact Hq.
    split; [apply Qfloor_le | apply Qlt_floor].
  - assert (Hc : Qtrunc q = Qceiling q).
    { destruct q as [n d]. unfold Qle in Hq. simpl in Hq.
      unfold Qtrunc, Qceiling, Qfloor, Qopp. simpl.
      rewrite <- (Z.opp_involutive n) at 1.
      rewrite Z.quot_opp_l by lia.
      rewrite Z.quot_div_nonneg by lia. reflexivity. }
    rewrite Hc. split; [apply Qceiling_lt | apply Qle_ceiling].
Qed.

(** ** Examples *)

Example gravity_as_float :
  float_of_double GRAVITY = S754_finite false 13421773 (-25).
Proof. reflexivity. Qed.

Example jump_force_as_float :
  float_of_double JUMP_FORCE = S754_finite true 8388608 (-20)
  /\ SFis (float_of_double JUMP_FORCE) (-8).
Proof. split; [reflexivity | vm_compute; reflexivity]. Qed.

(** A pipe spawned at [x = 800] is at [x = 398] after 134 frames. *)
Example pipe_after_134_frames :
  pipe_x (Nat.iter 134 move_pipe (new_pipe_for 165)) = 800 - 3 * 134.
Proof. vm_compute. reflexivity. Qed.

(** The first frame of a game: the bird falls by [0.4]. *)
Example first_frame :
  let g := game (main_iteration (idle_frame 16) (start_game 0)) in
  bird_velocity (bird g) = S754_finite false 13421773 (-25)
  /\ SFfloor (bird_y (bird g)) = Some 300
  /\ rect_y (bird_rect (bird g)) = 300
  /\ game_over g = false.
Proof. vm_compute. repeat split. Qed.


(** * Further properties *)

(** ** create_pipe: the ring of slots *)

Lemma create_pipe_next r g :
  0 <= next_pipe g < MAX_PIPES ->
  next_pipe (create_pipe r g) = (next_pipe g + 1) mod MAX_PIPES.
Proof.
  intros H. unfold create_pipe.
  cbn [next_pipe set_next_pipe set_pipe set_pipes]. unfold int_mod, MAX_PIPES in *.
  rewrite int_add_exact by int_arith.
  apply Z.rem_mod_nonneg; lia.
Qed.

Lemma create_pipe_pipes r g :
  pipes (create_pipe r g) =
  <[Z.to_nat (next_pipe g) := new_pipe_for r]> (pipes g).
Proof. reflexivity. Qed.

Lemma create_pipes_frame rs : forall g,
  bird (create_pipes rs g) = bird g
  /\ score (create_pipes rs g) = score g
  /\ game_over (create_pipes rs g) = game_over g
  /\ last_pipe_time (create_pipes rs g) = last_pipe_time g
  /\ length (pipes (create_pipes rs g)) = length (pipes g).
Proof.
  induction rs as [|r rs IH]; intros g; simpl; [repeat split|].
  destruct (IH (create_pipe r g)) as (-> & -> & -> & -> & ->).
  rewrite create_pipe_pipes, length_insert. repeat split.
Qed.

Lemma create_pipes_next rs : forall g,
  0 <= next_pipe g < MAX_PIPES ->
  next_pipe (create_pipes rs g) =
  (next_pipe g + Z.of_nat (length rs)) mod MAX_PIPES.
Proof.
  induction rs as [|r rs IH]; intros g H; simpl.
  - rewrite Z.add_0_r. symmetry. apply Z.mod_small. exact H.
  - unfold create_pipes in *. simpl. rewrite IH by (apply next_pipe_ok, H).
    rewrite create_pipe_next by exact H.
    rewrite Zplus_mod_idemp_l. f_equal. lia.
Qed.

Lemma ring_slot_0 g :
  0 <= next_pipe g < MAX_PIPES -> ring_slot g 0 = Z.to_nat (next_pipe g).
Proof.
  intros H. unfold ring_slot. rewrite Z.add_0_r, Z.mod_small by exact H.
  reflexivity.
Qed.

Lemma ring_slot_succ r g m :
  0 <= next_pipe g < MAX_PIPES ->
  ring_slot (create_pipe r g) m = ring_slot g (S m).
Proof.
  intros H. unfold ring_slot. rewrite create_pipe_next by exact H.
  rewrite Zplus_mod_idemp_l. do 2 f_equal. lia.
Qed.

Lemma ring_slot_distinct g m1 m2 :
  0 <= next_pipe g < MAX_PIPES ->
  (m1 < m2 < m1 + Z.to_nat MAX_PIPES)%nat ->
  ring_slot g m1 <> ring_slot g m2.
Proof.
  unfold ring_slot, MAX_PIPES. intros Hn Hm Heq.
  apply Z2Nat.inj in Heq; try (apply Z.mod_pos_bound; lia).
  pose proof (Z.div_mod (next_pipe g + Z.of_nat m1) 10 ltac:(lia)).
  pose proof (Z.div_mod (next_pipe g + Z.of_nat m2) 10 ltac:(lia)).
  lia.
Qed.

Lemma ring_slot_lt g m : (ring_slot g m < Z.to_nat MAX_PIPES)%nat.
Proof.
  unfold ring_slot, MAX_PIPES.
  pose proof (Z.mod_pos_bound (next_pipe g + Z.of_nat m) 10 ltac:(lia)). lia.
Qed.

Lemma create_pipes_untouched rs : forall g j,
  0 <= next_pipe g < MAX_PIPES ->
  (forall m, (m < length rs)%nat -> ring_slot g m <> j) ->
  pipes (create_pipes rs g) !! j = pipes g !! j.
Proof.
  induction rs as [|r rs IH]; intros g j Hn Hj; [reflexivity|].
  change (create_pipes (r :: rs) g) with (create_pipes rs (create_pipe r g)).
  rewrite IH.
  - rewrite create_pipe_pipes. apply list_lookup_insert_ne.
    rewrite <- (ring_slot_0 g Hn). apply Hj. simpl. lia.
  - apply next_pipe_ok, Hn.
  - intros m Hm. rewrite ring_slot_succ by exact Hn. apply Hj. simpl. lia.
Qed.

Lemma create_pipes_lookup rs : forall g m r,
  length (pipes g) = Z.to_nat MAX_PIPES -> 0 <= next_pipe g < MAX_PIPES ->
  rs !! m = Some r -> (length rs <= m + Z.to_nat MAX_PIPES)%nat ->
  pipes (create_pipes rs g) !! ring_slot g m = Some (new_pipe_for r).
Proof.
  induction rs as [|r0 rs IH]; intros g m r Hlen Hn Hm Hwin; [discriminate|].
  change (create_pipes (r0 :: rs) g) with (create_pipes rs (create_pipe r0 g)).
  destruct m as [|m]; simpl in Hm, Hwin.
  - injection Hm as ->.
    rewrite create_pipes_untouched.
    + rewrite create_pipe_pipes, (ring_slot_0 g Hn).
      apply list_lookup_insert_eq. unfold MAX_PIPES in *. lia.
    + apply next_pipe_ok, Hn.
    + intros m Hm. rewrite ring_slot_succ by exact Hn.
      intros Heq. symmetry in Heq. revert Heq.
      apply ring_slot_distinct; [exact Hn | lia].
  - rewrite <- (ring_slot_succ r0 g m Hn). apply IH.
    + rewrite create_pipe_pipes, length_insert. exact Hlen.
    + apply next_pipe_ok, Hn.
    + exact Hm.
    + lia.
Qed.

(** X1.  Successive calls of [create_pipe] go round the [MAX_PIPES] slots:
    the cursor advances by one modulo [MAX_PIPES] per call; each of the last
    [MAX_PIPES] pipes created is in its slot, older ones have been written
    over; a slot no call has reached is as it was; the bird, the score,
    [game_over] and [last_pipe_time] are not touched. *)
Theorem create_pipe_ring (rs : list Z) (g : Game) :
  length (pipes g) = Z.to_nat MAX_PIPES -> 0 <= next_pipe g < MAX_PIPES ->
  let g' := create_pipes rs g in
  next_pipe g' = (next_pipe g + Z.of_nat (length rs)) mod MAX_PIPES
  /\ length (pipes g') = Z.to_nat MAX_PIPES
  /\ (forall m r, rs !! m = Some r ->
        (length rs <= m + Z.to_nat MAX_PIPES)%nat ->
        pipes g' !! ring_slot g m = Some (new_pipe_for r))
  /\ (forall j, (forall m, (m < length rs)%nat -> ring_slot g m <> j) ->
        pipes g' !! j = pipes g !! j)
  /\ (forall m1 m2, (m1 < m2 < m1 + Z.to_nat MAX_PIPES)%nat ->
        ring_slot g m1 <> ring_slot g m2)
  /\ (forall m, ring_slot g (m + Z.to_nat MAX_PIPES) = ring_slot g m)
  /\ bird g' = bird g /\ score g' = score g
  /\ game_over g' = game_over g /\ last_pipe_time g' = last_pipe_time g.
Proof.
  intros Hlen Hn g'. unfold g'.
  destruct (create_pipes_frame rs g) as (Hb & Hs & Ho & Ht & Hl).
  split; [apply create_pipes_next, Hn|].
  split; [rewrite Hl; exact Hlen|].
  split; [intros m r; apply create_pipes_lookup; assumption|].
  split; [intros j; apply create_pipes_untouched, Hn|].
  split; [intros m1 m2; apply ring_slot_distinct, Hn|].
  split; [|repeat split; assumption].
  intros m. unfold ring_slot. f_equal.
  rewrite Nat2Z.inj_add, Z2Nat.id by (unfold MAX_PIPES; lia).
  rewrite Z.add_assoc. rewrite <- (Z.mul_1_l MAX_PIPES) at 1.
  apply Z.mod_add. unfold MAX_PIPES. lia.
Qed.

Lemma create_pipe_ring_witness :
  let g := reset_game 0 initial_game in
  let rs := [0; 1; 2; 3; 4; 5; 6; 7; 8; 9; 10] in
  pipes (create_pipes rs g) !! 0%nat = Some (new_pipe_for 10)
  /\ pipes (create_pipes rs g) !! 1%nat = Some (new_pipe_for 1).
Proof.
  intros g rs.
  assert (H1 : length (pipes g) = Z.to_nat MAX_PIPES) by reflexivity.
  assert (H2 : 0 <= next_pipe g < MAX_PIPES) by (vm_compute; split; [discriminate | reflexivity]).
  destruct (create_pipe_ring rs g H1 H2) as (_ & _ & Hl & _).
  split.
  - apply (Hl 10%nat 10); [reflexivity | vm_compute; lia].
  - apply (Hl 1%nat 1); [reflexivity | vm_compute; lia].
Defined.

(** ** update_game: the spawn and the clock *)

Lemma uint32_elapsed now last :
  0 <= now < 2 ^ 32 -> 0 <= last < 2 ^ 32 ->
  uint32 (now - last) = elapsed now last.
Proof.
  intros Hn Hl. unfold uint32, elapsed.
  destruct (Z.leb_spec last now).
  - apply Z.mod_small. lia.
  - rewrite <- (Z.mod_small (now + 2 ^ 32 - last) (2 ^ 32)) by lia.
    replace (now + 2 ^ 32 - last) with (now - last + 1 * 2 ^ 32) by lia.
    rewrite Z.mod_add by lia. reflexivity.
Qed.

(** X2.  [update_game] spawns a pipe exactly when more than
    [PIPE_SPAWN_TIME] ms have passed since [last_pipe_time], on the 32-bit
    clock: also when the clock has wrapped in between.  A spawn is one
    [create_pipe] and sets [last_pipe_time] to the clock value; without one
    the globals are as they were. *)
Theorem spawn_pipe_timing (now r : Z) (g : Game) :
  0 <= now < 2 ^ 32 -> 0 <= last_pipe_time g < 2 ^ 32 ->
  let t := elapsed now (last_pipe_time g) in
  0 <= t < 2 ^ 32
  /\ (last_pipe_time g <= now -> t = now - last_pipe_time g)
  /\ (now < last_pipe_time g -> t = now + (2 ^ 32 - last_pipe_time g))
  /\ (t <= PIPE_SPAWN_TIME -> spawn_pipe now r g = g)
  /\ (PIPE_SPAWN_TIME < t ->
      spawn_pipe now r g = set_last_pipe_time now (create_pipe r g)
      /\ last_pipe_time (spawn_pipe now r g) = now
      /\ last_pipe_time (update_game now r g) = now
      /\ spawn_pipe now r (spawn_pipe now r g) = spawn_pipe now r g).
Proof.
  intros Hn Hl t.
  pose proof (uint32_elapsed now (last_pipe_time g) Hn Hl) as Hu. fold t in Hu.
  assert (Ht : 0 <= t < 2 ^ 32).
  { rewrite <- Hu. apply Z.mod_pos_bound. lia. }
  split; [exact Ht|].
  split; [intros H; unfold t, elapsed;
          destruct (Z.leb_spec (last_pipe_time g) now); lia|].
  split; [intros H; unfold t, elapsed;
          destruct (Z.leb_spec (last_pipe_time g) now); lia|].
  split.
  - intros Hle. unfold spawn_pipe. cbv zeta. rewrite Hu.
    destruct (Z.ltb_spec PIPE_SPAWN_TIME t); [lia | reflexivity].
  - intros Hgt.
    assert (Hs : spawn_pipe now r g = set_last_pipe_time now (create_pipe r g)).
    { unfold spawn_pipe. cbv zeta. rewrite Hu.
      destruct (Z.ltb_spec PIPE_SPAWN_TIME t); [reflexivity | lia]. }
    split; [exact Hs|]. split; [rewrite Hs; reflexivity|].
    split.
    + rewrite update_game_eq. cbn [last_pipe_time]. rewrite Hs. reflexivity.
    + rewrite Hs. unfold spawn_pipe at 1. cbv zeta.
      cbn [last_pipe_time set_last_pipe_time].
      rewrite Z.sub_diag. reflexivity.
Qed.

Lemma spawn_pipe_timing_witness :
  let g := set_last_pipe_time (2 ^ 32 - 1000) (reset_game 0 initial_game) in
  elapsed 600 (last_pipe_time g) = 1600
  /\ last_pipe_time (update_game 600 0 g) = 600.
Proof.
  intros g.
  assert (H1 : 0 <= 600 < 2 ^ 32) by (split; [discriminate | reflexivity]).
  assert (H2 : 0 <= last_pipe_time g < 2 ^ 32)
    by (split; [discriminate | reflexivity]).
  split; [reflexivity|].
  destruct (spawn_pipe_timing 600 0 g H1 H2) as (_ & _ & _ & _ & Hs).
  apply Hs. reflexivity.
Defined.

(** ** update_game: when the game ends *)

Lemma existsb_lookup_iff {A} (h : A -> bool) (l : list A) :
  existsb h l = true <-> exists j a, l !! j = Some a /\ h a = true.
Proof.
  split; [apply existsb_lookup|].
  intros (j & a & Hj & Ha). apply existsb_exists. exists a.
  split; [|exact Ha]. apply list_elem_of_In, list_elem_of_lookup. eauto.
Qed.

Lemma hits_ground_iff b :
  in_int (rect_y (bird_rect b) + rect_h (bird_rect b)) ->
  hits_ground b = true <->
  rect_y (bird_rect b) + rect_h (bird_rect b) > SCREEN_HEIGHT - 20.
Proof.
  intros Hfit. unfold hits_ground. rewrite int_add_exact by exact Hfit.
  change (int_sub SCREEN_HEIGHT 20) with (SCREEN_HEIGHT - 20).
  rewrite Z.ltb_lt. lia.
Qed.

(** X3.  After [update_game] the game is over exactly when it was over
    before, or the bird's box reaches below the ground line, or the bird's
    box intersects a box of a relevant slot as the update leaves it.  So
    [update_game] never clears [game_over]; and the ground line is strict:
    with the bottom of the box at [SCREEN_HEIGHT - 20] the game goes on. *)
Theorem update_game_over_iff (now r : Z) (g : Game) :
  let g0 := spawn_pipe now r g in
  let g' := update_game now r g in
  let b := bird_rect (bird g') in
  (game_over g' = true <->
     game_over g = true \/ hits_ground (bird g') = true \/
     exists (i : nat) (p : Pipe),
       (i < Z.to_nat MAX_PIPES)%nat /\ pipes g0 !! i = Some p /\
       pipe_x p <= SCREEN_WIDTH + 100 /\
       pipes g' !! i = Some (slot_after b p) /\
       pipe_hits b (slot_after b p) = true)
  /\ (game_over g = true -> game_over g' = true)
  /\ (in_int (rect_y b + rect_h b) ->
      (hits_ground (bird g') = true <->
       rect_y b + rect_h b > SCREEN_HEIGHT - 20))
  /\ (rect_y b + rect_h b = SCREEN_HEIGHT - 20 ->
      hits_ground (bird g') = false).
Proof.
  intros g0 g' b.
  assert (Hover : game_over g' =
                  (game_over g || hits_ground (bird g'))
                  || existsb (slot_hit b) (take (Z.to_nat MAX_PIPES) (pipes g0))).
  { unfold b, g'. rewrite update_game_bird. rewrite update_game_eq.
    reflexivity. }
  split; [|split; [|split]].
  - rewrite Hover, !orb_true_iff, existsb_lookup_iff. split.
    + intros [[H|H]|(j & p & Hj & Hp)]; [left; exact H | right; left; exact H|].
      right; right. apply lookup_take_Some in Hj as [Hj Hlt].
      unfold slot_hit in Hp. apply andb_true_iff in Hp as [Hr Hp].
      exists j, p. split; [exact Hlt|]. split; [exact Hj|].
      split; [apply slot_relevant_le, Hr|]. split; [|exact Hp].
      unfold g', b. rewrite update_game_lookup by exact Hlt.
      fold g0. rewrite Hj. reflexivity.
    + intros [H|[H|(i & p & Hi & Hp & Hx & _ & Hhit)]];
        [left; left; exact H | left; right; exact H|].
      right. exists i, p. split.
      * apply lookup_take_Some. split; assumption.
      * unfold slot_hit. rewrite Hhit, andb_true_r.
        unfold slot_relevant. apply negb_true_iff, Z.ltb_ge. exact Hx.
  - intros H. rewrite Hover, H. reflexivity.
  - apply hits_ground_iff.
  - intros Heq. unfold hits_ground. fold b.
    rewrite int_add_exact by (rewrite Heq; vm_compute; split; discriminate).
    rewrite Heq. reflexivity.
Qed.

(** ** check_collision: what it means *)

Lemma check_collision_true_iff a b :
  rect_fits a -> rect_fits b ->
  check_collision a b = true <->
  rect_y a < bottom_of b /\ rect_y b < bottom_of a /\
  rect_x a < right_of b /\ rect_x b < right_of a.
Proof.
  intros [Har Hab] [Hbr Hbb].
  pose proof (check_collision_false_iff a b) as H.
  rewrite (rect_right_exact a), (rect_right_exact b),
          (rect_bottom_exact a), (rect_bottom_exact b) in H by assumption.
  unfold rect_left, rect_top in H.
  destruct (check_collision a b).
  - split; [intros _ | reflexivity].
    assert (~ (bottom_of a <= rect_y b \/ rect_y a >= bottom_of b \/
               right_of a <= rect_x b \/ rect_x a >= right_of b)) as Hn
      by (intros HD; apply H in HD; discriminate).
    lia.
  - split; [discriminate|]. intros Hc.
    destruct H as [H _]. specialize (H eq_refl). lia.
Qed.

(** X4.  Two rectangles of positive size intersect for [check_collision]
    exactly when they have a point in common, a point of a rectangle being
    [x <= px < x + w], [y <= py < y + h]. *)
Theorem check_collision_common_point (a b : SDL_Rect) :
  rect_fits a -> rect_fits b ->
  0 < rect_w a -> 0 < rect_h a -> 0 < rect_w b -> 0 < rect_h b ->
  (check_collision a b = true <->
   exists px py, inside a px py /\ inside b px py).
Proof.
  intros Ha Hb Hwa Hha Hwb Hhb.
  rewrite (check_collision_true_iff a b Ha Hb).
  unfold inside, right_of, bottom_of in *. split.
  - intros (H1 & H2 & H3 & H4).
    exists (Z.max (rect_x a) (rect_x b)), (Z.max (rect_y a) (rect_y b)). lia.
  - intros (px & py & H1 & H2). lia.
Qed.

Lemma check_collision_common_point_witness :
  let bird_box := mkRect 200 300 40 30 in
  let top_box := mkRect 230 0 60 301 in
  check_collision bird_box top_box = true
  /\ inside bird_box 230 300 /\ inside top_box 230 300.
Proof.
  intros bird_box top_box.
  assert (Ha : rect_fits bird_box) by (repeat split; discriminate).
  assert (Hb : rect_fits top_box) by (repeat split; discriminate).
  assert (Hp : inside bird_box 230 300 /\ inside top_box 230 300)
    by (vm_compute; repeat split; discriminate).
  split; [|exact Hp].
  apply (check_collision_common_point bird_box top_box Ha Hb
           eq_refl eq_refl eq_refl eq_refl).
  exists 230, 300. exact Hp.
Defined.

(** X5.  An empty rectangle (width 0) has no point, yet [check_collision]
    reports an intersection when it lies strictly between the left and right
    edges of the other rectangle and the two overlap vertically. *)
Theorem check_collision_empty_rect (a b : SDL_Rect) :
  rect_fits a -> rect_fits b ->
  rect_w a = 0 ->
  rect_x b < rect_x a < right_of b ->
  rect_y a < bottom_of b -> rect_y b < bottom_of a ->
  check_collision a b = true
  /\ check_collision b a = true
  /\ forall px py, ~ inside a px py.
Proof.
  intros Ha Hb Hw Hx Hy1 Hy2.
  assert (Hc : check_collision a b = true).
  { apply (check_collision_true_iff a b Ha Hb).
    unfold right_of, bottom_of in *. lia. }
  split; [exact Hc|]. split; [rewrite check_collision_sym; exact Hc|].
  intros px py. unfold inside, right_of. lia.
Qed.

Lemma check_collision_empty_rect_witness :
  check_collision (mkRect 10 10 0 5) (mkRect 0 0 20 20) = true.
Proof.
  apply (check_collision_empty_rect (mkRect 10 10 0 5) (mkRect 0 0 20 20));
    try reflexivity; repeat split; discriminate.
Defined.

(** ** update_game: the bird and the gap *)

Lemma pipe_consistent_fits p :
  pipe_consistent p -> small (pipe_x p) -> small (pipe_gap_y p) ->
  rect_fits (pipe_top_rect p) /\ rect_fits (pipe_bottom_rect p).
Proof.
  intros [Ht Hb] Hx Hg. rewrite Ht, Hb.
  unfold rect_fits, right_of, bottom_of, small in *.
  cbn [rect_x rect_y rect_w rect_h].
  change (PIPE_GAP / 2) with 85.
  unfold in_int, INT_MIN, INT_MAX, PIPE_WIDTH, SCREEN_HEIGHT in *. lia.
Qed.

(** X6.  The bird touches a pipe exactly when its box overlaps the pipe
    horizontally and is not wholly inside the gap, that is when it reaches
    above [gap_y - 85] or below [gap_y + 85]: for a pipe with the boxes
    [create_pipe] gives and a bird box that starts on the screen. *)
Theorem pipe_hits_gap (b : SDL_Rect) (p : Pipe) :
  pipe_consistent p ->
  small (pipe_x p) -> small (pipe_gap_y p) ->
  small (rect_x b) -> 0 < rect_w b <= 2 ^ 29 ->
  0 <= rect_y b < SCREEN_HEIGHT -> 0 < rect_h b <= 2 ^ 29 ->
  (pipe_hits b p = true <->
   (rect_x b < pipe_x p + PIPE_WIDTH /\ pipe_x p < rect_x b + rect_w b) /\
   (rect_y b < pipe_gap_y p - PIPE_GAP / 2 \/
    pipe_gap_y p + PIPE_GAP / 2 < rect_y b + rect_h b)).
Proof.
  intros Hc Hx Hg Hbx Hbw Hby Hbh.
  destruct (pipe_consistent_fits p Hc Hx Hg) as [Hft Hfb].
  assert (Hb : rect_fits b).
  { unfold rect_fits, right_of, bottom_of, small, in_int, INT_MIN, INT_MAX,
      SCREEN_HEIGHT in *. lia. }
  unfold pipe_hits. rewrite orb_true_iff.
  rewrite (check_collision_true_iff b _ Hb Hft),
          (check_collision_true_iff b _ Hb Hfb).
  destruct Hc as [-> ->]. unfold right_of, bottom_of.
  cbn [rect_x rect_y rect_w rect_h].
  change (PIPE_GAP / 2) with 85.
  unfold PIPE_WIDTH, SCREEN_HEIGHT in *. lia.
Qed.

Lemma pipe_hits_gap_witness :
  let bird_box := mkRect 200 300 40 30 in
  let p := move_pipe (new_pipe_for 165) in
  let q := Nat.iter 190 move_pipe (new_pipe_for 0) in
  pipe_hits bird_box p = false /\ pipe_hits bird_box q = true.
Proof.
  intros bird_box p q.
  assert (Hw : forall p0, p0 = p \/ p0 = q ->
    pipe_consistent p0 /\ small (pipe_x p0) /\ small (pipe_gap_y p0)).
  { intros p0 [-> | ->]; vm_compute; repeat split; discriminate. }
  assert (Hb : small (rect_x bird_box) /\ 0 < rect_w bird_box <= 2 ^ 29 /\
               0 <= rect_y bird_box < SCREEN_HEIGHT /\
               0 < rect_h bird_box <= 2 ^ 29)
    by (vm_compute; repeat split; discriminate).
  destruct Hb as (B1 & B2 & B3 & B4).
  destruct (Hw p (or_introl eq_refl)) as (P1 & P2 & P3).
  destruct (Hw q (or_intror eq_refl)) as (Q1 & Q2 & Q3).
  split.
  - destruct (pipe_hits bird_box p) eqn:E; [|reflexivity].
    apply (pipe_hits_gap bird_box p P1 P2 P3 B1 B2 B3 B4) in E.
    destruct E as [[_ H] _]. vm_compute in H. discriminate H.
  - apply (pipe_hits_gap bird_box q Q1 Q2 Q3 B1 B2 B3 B4).
    vm_compute. repeat split; try reflexivity. right. reflexivity.
Defined.

(** ** update_game, again and again: a pipe on its way *)

Lemma fold_left_step {A B} (f : A -> B -> A) (b : B) (l : list B) (a : A) :
  fold_left f (b :: l) a = fold_left f l (f a b).
Proof. reflexivity. Qed.

Lemma updates_cons (step : Z * Z) (steps : list (Z * Z)) (g : Game) :
  updates (step :: steps) g =
  updates steps (update_game (fst step) (snd step) g).
Proof. exact (fold_left_step _ step steps g). Qed.

Lemma slot_after_fields b p :
  slot_relevant p = true ->
  pipe_gap_y (slot_after b p) = pipe_gap_y p
  /\ pipe_top_rect (slot_after b p) =
       set_rect_x (pipe_x (slot_after b p)) (pipe_top_rect p)
  /\ pipe_bottom_rect (slot_after b p) =
       set_rect_x (pipe_x (slot_after b p)) (pipe_bottom_rect p).
Proof.
  intros Hr. unfold slot_after. rewrite Hr.
  destruct (pipe_scores b (move_pipe p)); repeat split.
Qed.

Lemma set_rect_x_twice v w r : set_rect_x v (set_rect_x w r) = set_rect_x v r.
Proof. reflexivity. Qed.

Lemma updates_rect_x steps : forall g,
  rect_x (bird_rect (bird (updates steps g))) = rect_x (bird_rect (bird g)).
Proof.
  induction steps as [|step steps IH]; intros g; [reflexivity|].
  rewrite updates_cons, IH. apply update_game_rect_x.
Qed.

(** X7.  A relevant pipe whose slot no spawn writes moves left by
    [PIPE_SPEED] in every [update_game]: after [n] of them its [x] is
    [x - 3 n], its two boxes are at that [x], its gap and the rest of the
    boxes are as they were; and it is passed when it was passed before or
    its right edge has gone left of the bird's box: [passed] is never
    cleared on the way. *)
Theorem pipe_motion (i : nat) (steps : list (Z * Z)) (g : Game) (p : Pipe) :
  (i < Z.to_nat MAX_PIPES)%nat ->
  slot_kept i steps g ->
  pipes g !! i = Some p ->
  let n := Z.of_nat (length steps) in
  INT_MIN + PIPE_SPEED * n <= pipe_x p <= SCREEN_WIDTH + 100 ->
  exists p',
    pipes (updates steps g) !! i = Some p'
    /\ pipe_x p' = pipe_x p - PIPE_SPEED * n
    /\ pipe_gap_y p' = pipe_gap_y p
    /\ (steps = [] -> p' = p)
    /\ (steps <> [] ->
        pipe_top_rect p' = set_rect_x (pipe_x p') (pipe_top_rect p) /\
        pipe_bottom_rect p' = set_rect_x (pipe_x p') (pipe_bottom_rect p))
    /\ pipe_passed p' =
         pipe_passed p
         || ((0 <? n) &&
             (pipe_x p' + PIPE_WIDTH <? rect_x (bird_rect (bird g)))).
Proof.
  intros Hi. revert g p.
  induction steps as [|step steps IH]; intros g p Hkept Hp n Hx.
  - exists p. subst n. simpl. repeat split; try assumption; try congruence.
    + unfold PIPE_SPEED. lia.
    + rewrite orb_false_r. reflexivity.
  - destruct Hkept as [Hsame Hkept].
    pose proof (update_game_lookup (fst step) (snd step) g i Hi) as Hlook.
    pose proof (update_game_rect_x (fst step) (snd step) g) as Hbx.
    rewrite updates_cons.
    remember (update_game (fst step) (snd step) g) as g1 eqn:Hg1.
    remember (bird_rect (bird g1)) as b eqn:Hb.
    clear Hg1.
    assert (Hn : n = Z.of_nat (length steps) + 1)
      by (subst n; simpl length; lia).
    assert (Hx1 : INT_MIN + PIPE_SPEED <= pipe_x p <= SCREEN_WIDTH + 100)
      by (unfold PIPE_SPEED in *; lia).
    destruct (slot_after_relevant b p Hx1) as (Hr & Hmove & Hsc & Hpass).
    destruct (slot_after_fields b p Hr) as (Hgap & Htop & Hbot).
    assert (Hp1 : pipes g1 !! i = Some (slot_after b p)).
    { rewrite Hlook, Hsame, Hp. reflexivity. }
    destruct (IH g1 (slot_after b p) Hkept Hp1) as
      (p' & Hp' & Hx' & Hg' & Hnil & Hcons & Hpassed).
    { rewrite Hmove. unfold PIPE_SPEED, SCREEN_WIDTH in *. lia. }
    exists p'. split; [exact Hp'|].
    assert (Hxp : pipe_x p' = pipe_x p - PIPE_SPEED * n)
      by (rewrite Hx', Hmove, Hn; unfold PIPE_SPEED; lia).
    split; [exact Hxp|]. split; [congruence|].
    split; [discriminate|]. split.
    + intros _. destruct steps as [|s steps'].
      * rewrite (Hnil eq_refl). split; assumption.
      * destruct (Hcons ltac:(discriminate)) as [Ht Hbt].
        rewrite Ht, Hbt, Htop, Hbot, !set_rect_x_twice. split; reflexivity.
    + rewrite Hpassed, Hpass, Hsc.
      rewrite <- Hb, Hbx.
      replace (0 <? n) with true by (symmetry; apply Z.ltb_lt; lia).
      cbn [andb].
      destruct (pipe_passed p); cbn [negb andb orb]; [reflexivity|].
      destruct (Z.ltb_spec 0 (Z.of_nat (length steps))) as [Hpos|Hzero];
        cbn [andb].
      * destruct (Z.ltb_spec (pipe_x p - PIPE_SPEED + PIPE_WIDTH)
                             (rect_x (bird_rect (bird g))));
          destruct (Z.ltb_spec (pipe_x p' + PIPE_WIDTH)
                               (rect_x (bird_rect (bird g))));
          try reflexivity.
        exfalso. unfold PIPE_SPEED in *. lia.
      * rewrite orb_false_r. f_equal.
        rewrite Hxp, Hn. unfold PIPE_SPEED.
        replace (Z.of_nat (length steps)) with 0 by lia. lia.
Qed.

Lemma pipe_motion_witness :
  exists p',
    pipes (updates [(16, 0); (32, 0)] game_pipe_passing) !! 0%nat = Some p'
    /\ pipe_x p' = 134 /\ pipe_passed p' = true.
Proof.
  assert (Hi : (0 < Z.to_nat MAX_PIPES)%nat) by (vm_compute; lia).
  assert (Hkept : slot_kept 0 [(16, 0); (32, 0)] game_pipe_passing)
    by (vm_compute; repeat split).
  pose proof (pipe_motion 0 [(16, 0); (32, 0)] game_pipe_passing
                (mkPipe 140 300 false (mkRect 140 0 60 215)
                        (mkRect 140 385 60 215))
                Hi Hkept eq_refl) as H.
  cbv zeta in H.
  destruct H as (p' & Hp' & Hx & _ & _ & _ & Hpassed).
  { vm_compute. split; discriminate. }
  exists p'. split; [exact Hp'|]. split.
  - rewrite Hx. reflexivity.
  - rewrite Hpassed, Hx. vm_compute. reflexivity.
Defined.

(** ** What holds in every state of the program *)

Lemma new_pipe_consistent r : pipe_consistent (new_pipe_for r).
Proof.
  unfold pipe_consistent, new_pipe_for, pipe_gap_for.
  cbn [pipe_top_rect pipe_bottom_rect pipe_x pipe_gap_y].
  change (int_div PIPE_GAP 2) with 85. change (PIPE_GAP / 2) with 85.
  change (int_add 85 50) with 135.
  change (int_sub (int_sub (int_sub SCREEN_HEIGHT 85) 50) 135) with 330.
  unfold int_mod.
  pose proof (Z.rem_bound_abs r 330 ltac:(lia)) as Hq.
  generalize dependent (Z.rem r 330). intros q Hq.
  assert (Hq' : -330 < q < 330) by lia. clear Hq.
  rewrite (int_add_exact 135 q) by int_arith.
  rewrite (int_sub_exact (135 + q) 85) by int_arith.
  rewrite (int_add_exact (135 + q) 85) by int_arith.
  rewrite (int_sub_exact SCREEN_HEIGHT) by int_arith.
  split; reflexivity.
Qed.

Lemma slot_after_ok b p : slot_ok p -> slot_ok (slot_after b p).
Proof.
  intros Hp. unfold slot_after.
  destruct (slot_relevant p) eqn:Hr; [|exact Hp].
  apply slot_relevant_le in Hr.
  destruct Hp as [Hx|[Ht Hb]];
    [unfold SCREEN_WIDTH in *; lia|].
  right. unfold pipe_consistent.
  destruct (pipe_scores b (move_pipe p));
    cbn [set_pipe_passed move_pipe pipe_top_rect pipe_bottom_rect pipe_x
         pipe_gap_y];
    rewrite Ht, Hb; split; reflexivity.
Qed.

Lemma spawn_pipe_ok now r g :
  Forall slot_ok (pipes g) -> Forall slot_ok (pipes (spawn_pipe now r g)).
Proof.
  intros H. destruct (spawn_pipe_cases now r g) as [[_ ->]| ->]; [|exact H].
  cbn [pipes set_last_pipe_time create_pipe set_next_pipe set_pipe set_pipes].
  apply Forall_insert; [exact H|].
  right. apply new_pipe_consistent.
Qed.

Lemma update_game_ok now r g :
  Forall slot_ok (pipes g) -> Forall slot_ok (pipes (update_game now r g)).
Proof.
  intros H. apply (spawn_pipe_ok now r) in H.
  rewrite update_game_eq. cbn [pipes].
  rewrite <- (take_drop (Z.to_nat MAX_PIPES) (pipes (spawn_pipe now r g))) in H.
  apply Forall_app in H as [Ht Hd].
  apply Forall_app. split; [|exact Hd].
  apply Forall_fmap. eapply Forall_impl; [exact Ht|].
  intros p Hp. apply slot_after_ok, Hp.
Qed.

Lemma reset_game_ok now g :
  length (pipes g) = Z.to_nat MAX_PIPES ->
  Forall slot_ok (pipes (reset_game now g)).
Proof.
  intros Hlen. apply Forall_lookup. intros i p Hp.
  rewrite reset_game_lookup in Hp.
  destruct (pipes g !! i) as [q|] eqn:Hq; [|discriminate].
  apply lookup_lt_Some in Hq. rewrite Hlen in Hq.
  destruct (decide (i < Z.to_nat MAX_PIPES)%nat) as [_|Hn]; [|lia].
  simpl in Hp. injection Hp as <-. left. reflexivity.
Qed.

Lemma fly_ok b : bird_ok b -> bird_ok (fly b).
Proof.
  intros (Hx & _ & _). unfold fly.
  pose proof (clamp_ceiling_rect_y (move_bird b)) as Hy.
  split; [|split; [|exact Hy]].
  - unfold clamp_ceiling. destruct (_ <? _); exact Hx.
  - unfold clamp_ceiling. destruct (_ <? _); reflexivity.
Qed.

Lemma reset_bird_ok b : bird_ok (reset_bird b).
Proof. unfold bird_ok. vm_compute. repeat split; discriminate. Qed.

Lemma update_game_bird_ok now r g :
  bird_ok (bird g) -> bird_ok (bird (update_game now r g)).
Proof. rewrite update_game_bird. apply fly_ok. Qed.

Lemma handle_event_ok l ev :
  well_formed (game l) ->
  bird_ok (bird (game l)) /\ Forall slot_ok (pipes (game l)) ->
  bird_ok (bird (game (handle_event l ev)))
  /\ Forall slot_ok (pipes (game (handle_event l ev))).
Proof.
  intros (Hlen & _) [Hb Hp]. destruct ev as [e now].
  destruct (is_jump e) eqn:He.
  - rewrite handle_event_jump by exact He. unfold jump_or_restart.
    destruct (game_over (game l)).
    + rewrite reset_game_bird. split; [apply reset_bird_ok|].
      apply reset_game_ok, Hlen.
    + split; [exact Hb | exact Hp].
  - rewrite handle_event_no_jump by exact He. split; assumption.
Qed.

Lemma poll_events_ok evs : forall l,
  well_formed (game l) ->
  bird_ok (bird (game l)) /\ Forall slot_ok (pipes (game l)) ->
  well_formed (game (fold_left handle_event evs l))
  /\ bird_ok (bird (game (fold_left handle_event evs l)))
  /\ Forall slot_ok (pipes (game (fold_left handle_event evs l))).
Proof.
  induction evs as [|ev evs IH]; intros l Hwf Hok; simpl.
  - split; [exact Hwf | exact Hok].
  - apply IH; [apply handle_event_well_formed, Hwf|].
    apply handle_event_ok; assumption.
Qed.

(** X8.  In every state the program reaches at the top of its loop the
    array has its ten slots and [next_pipe] indexes it; the bird is at
    [x = 200] with a box of 40 by 30 at [x = 200], whose [y] is
    [(int)bird.y] and is not negative; and every slot either is parked at
    [x = 1600] or holds a pipe whose two boxes are at its [x], as wide as
    a pipe, and leave exactly the gap of [PIPE_GAP] around its [gap_y]. *)
Theorem reachable_invariant (l : Loop) :
  reachable l ->
  well_formed (game l)
  /\ bird_ok (bird (game l))
  /\ Forall slot_ok (pipes (game l)).
Proof.
  intros Hl. split; [apply reachable_well_formed, Hl|].
  induction Hl as [now|f l Hl IH Hq].
  - unfold start_game. cbn [game]. rewrite reset_game_bird.
    split; [apply reset_bird_ok|]. apply reset_game_ok. reflexivity.
  - apply reachable_well_formed in Hl.
    destruct (poll_events_ok (frame_events f) l Hl IH) as (Hwf & Hb & Hp).
    unfold main_iteration. destruct (negb _); [|split; assumption].
    cbn [game]. split; [apply update_game_bird_ok, Hb|].
    apply update_game_ok, Hp.
Qed.

Lemma reachable_invariant_witness :
  reachable (main_iteration (jump_frame 16) (start_game 0))
  /\ Forall slot_ok (pipes (game (main_iteration (jump_frame 16) (start_game 0)))).
Proof.
  assert (H : reachable (main_iteration (jump_frame 16) (start_game 0)))
    by (apply reachable_step; [apply reachable_start | reflexivity]).
  split; [exact H|].
  exact (proj2 (proj2 (reachable_invariant _ H))).
Defined.

(** ** update_game while every pipe is parked *)

Lemma spawn_pipe_not_yet now r g :
  uint32 (now - last_pipe_time g) <= PIPE_SPAWN_TIME -> spawn_pipe now r g = g.
Proof.
  intros H. unfold spawn_pipe. cbv zeta.
  destruct (Z.ltb_spec PIPE_SPAWN_TIME (uint32 (now - last_pipe_time g)));
    [lia | reflexivity].
Qed.

Lemma score_over_parked b l : forall s,
  Forall (fun p => slot_relevant p = false) l -> score_over b l s = s.
Proof.
  unfold score_over.
  induction l as [|p l IH]; intros s H; simpl; [reflexivity|].
  inversion H as [|? ? Hp Hl]; subst.
  unfold slot_scored at 2. rewrite Hp. cbn [andb]. apply IH, Hl.
Qed.

Lemma slot_hit_parked b l :
  Forall (fun p => slot_relevant p = false) l -> existsb (slot_hit b) l = false.
Proof.
  induction 1 as [|p l Hp Hl IH]; simpl; [reflexivity|].
  unfold slot_hit at 1. rewrite Hp, IH. reflexivity.
Qed.

Lemma slot_after_parked b l :
  Forall (fun p => slot_relevant p = false) l -> slot_after b <$> l = l.
Proof.
  induction 1 as [|p l Hp Hl IH]; simpl; [reflexivity|].
  rewrite slot_after_irrelevant by exact Hp. f_equal. exact IH.
Qed.

Lemma update_game_parked now r g :
  uint32 (now - last_pipe_time g) <= PIPE_SPAWN_TIME ->
  Forall (fun p => slot_relevant p = false) (pipes g) ->
  update_game now r g =
  mkGame (fly (bird g)) (pipes g) (next_pipe g)
         (game_over g || hits_ground (fly (bird g))) (score g)
         (last_pipe_time g).
Proof.
  intros Ht Hp. rewrite update_game_eq.
  rewrite (spawn_pipe_not_yet now r g Ht).
  assert (Htake : Forall (fun p => slot_relevant p = false)
                         (take (Z.to_nat MAX_PIPES) (pipes g)))
    by (apply Forall_take, Hp).
  rewrite slot_after_parked, slot_hit_parked, score_over_parked by exact Htake.
  rewrite take_drop, orb_false_r. reflexivity.
Qed.

(** X9.  While every slot is parked right of [SCREEN_WIDTH + 100] (as
    [reset_game] leaves the array) and no more than [PIPE_SPAWN_TIME]
    milliseconds have gone by since [last_pipe_time], calls of
    [update_game] change the bird and [game_over] only: the pipes, the
    score, [next_pipe] and [last_pipe_time] stay as they are, the bird
    has flown once per call, and the game is over exactly when it was
    over or the bird's box has reached below the ground line after one of
    the calls. *)
Theorem parked_pipes_idle (steps : list (Z * Z)) (g : Game) :
  Forall (fun p => slot_relevant p = false) (pipes g) ->
  Forall (fun step => uint32 (fst step - last_pipe_time g) <= PIPE_SPAWN_TIME)
         steps ->
  let g' := updates steps g in
  pipes g' = pipes g
  /\ score g' = score g
  /\ next_pipe g' = next_pipe g
  /\ last_pipe_time g' = last_pipe_time g
  /\ bird g' = Nat.iter (length steps) fly (bird g)
  /\ (game_over g' = true <->
      game_over g = true \/
      exists k, (1 <= k <= length steps)%nat
                /\ hits_ground (Nat.iter k fly (bird g)) = true).
Proof.
  revert g. induction steps as [|step steps IH]; intros g Hp Ht; cbv zeta.
  - cbn [updates fold_left length Nat.iter nat_rect].
    repeat split; try reflexivity.
    + intros H. left. exact H.
    + intros [H|(k & Hk & _)]; [exact H | lia].
  - inversion Ht as [|? ? Hstep Hsteps]; subst.
    rewrite updates_cons.
    pose proof (update_game_parked (fst step) (snd step) g Hstep Hp) as Hg1.
    remember (update_game (fst step) (snd step) g) as g1 eqn:Heq. clear Heq.
    assert (Hp1 : pipes g1 = pipes g) by (rewrite Hg1; reflexivity).
    assert (Hs1 : score g1 = score g) by (rewrite Hg1; reflexivity).
    assert (Hn1 : next_pipe g1 = next_pipe g) by (rewrite Hg1; reflexivity).
    assert (Hl1 : last_pipe_time g1 = last_pipe_time g)
      by (rewrite Hg1; reflexivity).
    assert (Hb1 : bird g1 = fly (bird g)) by (rewrite Hg1; reflexivity).
    assert (Ho1 : game_over g1 = game_over g || hits_ground (fly (bird g)))
      by (rewrite Hg1; reflexivity).
    clear Hg1.
    destruct (IH g1) as (Hpipes & Hscore & Hnext & Hlast & Hbird & Hover).
    { rewrite Hp1. exact Hp. }
    { rewrite Hl1. exact Hsteps. }
    split; [congruence|]. split; [congruence|]. split; [congruence|].
    split; [congruence|]. split.
    + rewrite Hbird, Hb1. cbn [length]. symmetry. apply Nat.iter_succ_r.
    + rewrite Hover, Ho1, Hb1, orb_true_iff. cbn [length]. split.
      * intros [[H|H]|(k & Hk & H)].
        -- left. exact H.
        -- right. exists 1%nat. split; [lia | exact H].
        -- right. exists (S k). split; [lia|].
           rewrite Nat.iter_succ_r. exact H.
      * intros [H|(k & Hk & H)]; [left; left; exact H|].
        destruct k as [|[|k]]; [lia | left; right; exact H|].
        right. exists (S k). split; [lia|].
        rewrite Nat.iter_succ_r in H. exact H.
Qed.

Lemma parked_pipes_idle_witness :
  let g := reset_game 1000 initial_game in
  let g' := updates [(1016, 0); (2500, 0)] g in
  pipes g' = pipes g /\ score g' = 0 /\ game_over g' = false.
Proof.
  cbv zeta.
  assert (Hp : Forall (fun p => slot_relevant p = false)
                      (pipes (reset_game 1000 initial_game)))
    by (vm_compute; repeat constructor).
  assert (Ht : Forall (fun step =>
                         uint32 (fst step
                                 - last_pipe_time (reset_game 1000 initial_game))
                         <= PIPE_SPAWN_TIME)
                      [(1016, 0); (2500, 0)])
    by (repeat constructor; vm_compute; discriminate).
  pose proof (parked_pipes_idle [(1016, 0); (2500, 0)]
                (reset_game 1000 initial_game) Hp Ht) as H.
  cbv zeta in H. destruct H as (H1 & H2 & _ & _ & _ & H6).
  split; [exact H1|]. split; [rewrite H2; reflexivity|].
  apply not_true_is_false. intros Hover.
  apply H6 in Hover. destruct Hover as [H|(k & Hk & H)].
  - vm_compute in H. discriminate H.
  - cbn [length] in Hk.
    destruct k as [|[|[|k]]]; [lia| | |lia]; vm_compute in H; discriminate H.
Defined.

(** ** main: the end of the loop *)

Lemma handle_event_quit l ev :
  quit (handle_event l ev) = quit l || is_quit (fst ev).
Proof.
  destruct ev as [[|[]|[]|] now]; simpl;
    rewrite ?orb_true_r, ?orb_false_r; reflexivity.
Qed.

Lemma poll_events_quit evs : forall l,
  quit (fold_left handle_event evs l) =
  quit l || existsb (fun ev => is_quit (fst ev)) evs.
Proof.
  induction evs as [|ev evs IH]; intros l; simpl.
  - rewrite orb_false_r. reflexivity.
  - rewrite IH, handle_event_quit, orb_assoc. reflexivity.
Qed.

Lemma handle_event_game l l' ev :
  game l = game l' -> game (handle_event l ev) = game (handle_event l' ev).
Proof.
  intros H. destruct ev as [[|[]|[]|] now]; simpl; rewrite ?H; try reflexivity;
    exact H.
Qed.

Lemma handle_event_quit_game l ev :
  is_quit (fst ev) = true -> game (handle_event l ev) = game l.
Proof.
  destruct ev as [[|[]|[]|] now]; simpl; intros H; try reflexivity;
    discriminate.
Qed.

Lemma poll_events_drop_quit evs : forall l l',
  game l = game l' ->
  game (fold_left handle_event evs l) =
  game (fold_left handle_event
          (List.filter (fun ev => negb (is_quit (fst ev))) evs) l').
Proof.
  induction evs as [|ev evs IH]; intros l l' H; simpl; [exact H|].
  destruct (is_quit (fst ev)) eqn:Hq; simpl.
  - apply IH. rewrite handle_event_quit_game by exact Hq. exact H.
  - apply IH, handle_event_game, H.
Qed.

Lemma main_iteration_quit f l :
  quit (main_iteration f l) = quit l || has_quit f.
Proof.
  unfold main_iteration, has_quit.
  destruct (negb _); cbn [quit]; apply poll_events_quit.
Qed.

Lemma main_iteration_drop_quit f l l' :
  game l = game l' ->
  game (main_iteration f l) = game (main_iteration (drop_quit f) l').
Proof.
  intros H.
  pose proof (poll_events_drop_quit (frame_events f) l l' H) as E.
  unfold main_iteration, drop_quit.
  cbn [frame_events frame_now frame_rand].
  generalize dependent (fold_left handle_event (frame_events f) l).
  generalize (fold_left handle_event
                (List.filter (fun ev => negb (is_quit (fst ev)))
                             (frame_events f)) l').
  intros [gb qb] [ga qa] E. cbn [game quit] in *. subst gb.
  destruct (negb _); cbn [game]; reflexivity.
Qed.

Lemma main_loop_quit fs l : quit l = true -> main_loop fs l = l.
Proof. intros H. destruct fs; simpl; [|rewrite H]; reflexivity. Qed.

Lemma main_loop_no_quit fs : forall l,
  quit l = false -> forallb (fun f => negb (has_quit f)) fs = true ->
  quit (main_loop fs l) = false
  /\ main_loop fs l = fold_left (fun l f => main_iteration f l) fs l.
Proof.
  induction fs as [|f fs IH]; intros l Hq Hfs; simpl; [split; [exact Hq | reflexivity]|].
  simpl in Hfs. apply andb_true_iff in Hfs as [Hf Hfs].
  rewrite Hq. apply IH; [|exact Hfs].
  rewrite main_iteration_quit, Hq. apply negb_true_iff in Hf. rewrite Hf.
  reflexivity.
Qed.

(** X10.  The loop of [main] ends with the first iteration that receives
    [SDL_QUIT] or the escape key: the iterations before it all run, that
    iteration runs to its end (its other events are handled and, when the
    game is not over, [update_game] is called: for the game it is as if
    the event had not been there), and no frame after it is looked at. *)
Theorem quit_ends_loop (fs : list Frame) (f : Frame) (fs' : list Frame)
    (l : Loop) :
  quit l = false ->
  forallb (fun f => negb (has_quit f)) fs = true ->
  has_quit f = true ->
  let l1 := fold_left (fun l f => main_iteration f l) fs l in
  main_loop (fs ++ f :: fs') l = main_iteration f l1
  /\ quit (main_iteration f l1) = true
  /\ quit l1 = false
  /\ game (main_iteration f l1) = game (main_iteration (drop_quit f) l1).
Proof.
  intros Hq Hfs Hf l1.
  destruct (main_loop_no_quit fs l Hq Hfs) as [Hq1 Hl1]. fold l1 in Hl1.
  assert (Hend : quit (main_iteration f l1) = true)
    by (rewrite main_iteration_quit, Hf; apply orb_true_r).
  split; [|split; [exact Hend|split]].
  - revert l Hq Hfs l1 Hq1 Hl1 Hend.
    induction fs as [|f0 fs IH]; intros l Hq Hfs l1 Hq1 Hl1 Hend.
    + cbn [app main_loop]. rewrite Hq. apply main_loop_quit. exact Hend.
    + cbn [app main_loop]. rewrite Hq.
      simpl in Hfs. apply andb_true_iff in Hfs as [Hf0 Hfs].
      assert (Hq0 : quit (main_iteration f0 l) = false).
      { rewrite main_iteration_quit, Hq. apply negb_true_iff in Hf0.
        rewrite Hf0. reflexivity. }
      destruct (main_loop_no_quit fs _ Hq0 Hfs) as [Hq2 Hl2].
      apply (IH (main_iteration f0 l) Hq0 Hfs); [exact Hq2 | exact Hl2|].
      exact Hend.
  - rewrite <- Hl1. exact Hq1.
  - apply main_iteration_drop_quit. reflexivity.
Qed.

Lemma quit_ends_loop_witness :
  let f := mkFrame [(SDL_KEYDOWN SDLK_ESCAPE, 32); (SDL_KEYDOWN SDLK_SPACE, 32)]
                   32 0 in
  let l := main_loop [idle_frame 16; f; idle_frame 48] (start_game 0) in
  l = main_iteration f (main_iteration (idle_frame 16) (start_game 0))
  /\ quit l = true.
Proof.
  cbv zeta.
  pose proof (quit_ends_loop [idle_frame 16]
                (mkFrame [(SDL_KEYDOWN SDLK_ESCAPE, 32);
                          (SDL_KEYDOWN SDLK_SPACE, 32)] 32 0)
                [idle_frame 48] (start_game 0) eq_refl eq_refl eq_refl) as H.
  cbv zeta in H. destruct H as (H1 & H2 & _).
  cbn [app fold_left] in H1, H2.
  split; [exact H1|]. rewrite H1. exact H2.
Defined.

(** ** render_game: the digits of the score *)

Lemma flat_map_map {A B C} (f : B -> list C) (h : A -> B) (l : list A) :
  flat_map f (map h l) = flat_map (fun a => f (h a)) l.
Proof. induction l as [|a l IH]; simpl; [reflexivity | rewrite IH; reflexivity]. Qed.

Lemma glyphs_succ s x n :
  glyphs s x (S n) =
  SetRenderDrawColor 255 255 255 255
    :: draw_digit (s mod 10) x
    ++ glyphs (s / 10) (x + (digit_width + digit_spacing)) n.
Proof.
  unfold glyphs. cbn [seq flat_map].
  change (Z.of_nat 0) with 0. rewrite Z.pow_0_r, Z.div_1_r, Z.mul_0_r, Z.add_0_r.
  cbn [app]. f_equal. f_equal.
  rewrite <- seq_shift, flat_map_map.
  apply flat_map_ext. intros k. f_equal.
  rewrite Nat2Z.inj_succ, Z.pow_succ_r by lia.
  rewrite Z.div_div by lia.
  f_equal. lia.
Qed.

Lemma draw_digits_glyphs n : forall s x,
  0 <= s <= INT_MAX -> s < 10 ^ Z.of_nat n ->
  ((0 < n)%nat -> 10 ^ (Z.of_nat n - 1) <= s) ->
  draw_digits n s x = glyphs s x n.
Proof.
  induction n as [|n IH]; intros s x Hs Hlt Hge; [reflexivity|].
  assert (Hpow : 0 < 10 ^ Z.of_nat n) by (apply Z.pow_pos_nonneg; lia).
  assert (Hlow : 10 ^ Z.of_nat n <= s).
  { replace (Z.of_nat n) with (Z.of_nat (S n) - 1) by lia. apply Hge. lia. }
  rewrite glyphs_succ. cbn [draw_digits].
  replace (0 <? s) with true by (symmetry; apply Z.ltb_lt; lia).
  unfold int_mod. rewrite Z.rem_mod_nonneg by lia.
  assert (Hq : 0 <= s / 10 <= s).
  { split; [apply Z.div_pos; lia | apply Z.div_le_upper_bound; lia]. }
  assert (Hd : int_div s 10 = s / 10).
  { unfold int_div. rewrite Z.quot_div_nonneg by lia.
    apply sint32_id. int_arith. }
  rewrite Hd. f_equal. f_equal.
  apply IH; [lia| |].
  - apply Z.div_lt_upper_bound; [lia|].
    rewrite Nat2Z.inj_succ, Z.pow_succ_r in Hlt by lia. exact Hlt.
  - intros Hn. apply Z.div_le_lower_bound; [lia|].
    replace (Z.of_nat n) with (Z.succ (Z.of_nat n - 1)) in Hlow by lia.
    rewrite Z.pow_succ_r in Hlow by lia. exact Hlow.
Qed.

(** X11.  The digits of a positive score are drawn lowest first, from
    left to right: the digit of [10^k] at [x + 25 k], each after the
    colour is set to white, and no more glyphs than the score has digits
    (ten at most); so 12 is drawn as a 2 with a 1 to its right.  A score
    that is not positive draws no digit here. *)
Theorem score_digits_layout (s x : Z) (n : nat) :
  0 < s <= INT_MAX ->
  10 ^ (Z.of_nat n - 1) <= s < 10 ^ Z.of_nat n ->
  draw_digits score_digits_fuel s x = glyphs s x n
  /\ (1 <= n <= 10)%nat
  /\ (forall fuel s' x', s' <= 0 -> draw_digits fuel s' x' = []).
Proof.
  intros Hs [Hlow Hup].
  assert (Hn1 : (1 <= n)%nat).
  { destruct n as [|n]; [|lia]. simpl in Hup. lia. }
  assert (Hn10 : (n <= 10)%nat).
  { destruct (le_lt_dec n 10) as [H|H]; [exact H|]. exfalso.
    assert (10 ^ 10 <= 10 ^ (Z.of_nat n - 1))
      by (apply Z.pow_le_mono_r; lia).
    unfold INT_MAX in Hs. lia. }
  split; [|split; [lia|]].
  - rewrite (draw_digits_enough n) by (unfold score_digits_fuel; lia).
    apply draw_digits_glyphs; [lia | exact Hup | intros _; exact Hlow].
  - intros fuel s' x' Hs'. destruct fuel as [|fuel]; [reflexivity|].
    cbn [draw_digits].
    replace (0 <? s') with false by (symmetry; apply Z.ltb_ge; lia).
    reflexivity.
Qed.

Lemma score_digits_layout_witness :
  draw_digits score_digits_fuel 12 20 =
  [ SetRenderDrawColor 255 255 255 255 ] ++ draw_digit 2 20
  ++ [ SetRenderDrawColor 255 255 255 255 ] ++ draw_digit 1 45.
Proof.
  assert (Hs : 0 < 12 <= INT_MAX) by (vm_compute; split; [reflexivity | discriminate]).
  assert (Hn : 10 ^ (Z.of_nat 2 - 1) <= 12 < 10 ^ Z.of_nat 2)
    by (vm_compute; split; [discriminate | reflexivity]).
  rewrite (proj1 (score_digits_layout 12 20 2 Hs Hn)).
  reflexivity.
Defined.

(** ** render_game: the console and the pipes *)

Lemma filter_print_pipes n : forall i ps,
  List.filter is_print (render_pipes n i ps) = [].
Proof.
  induction n as [|n IH]; intros i ps; simpl; [reflexivity|].
  rewrite List.filter_app, IH, app_nil_r.
  destruct (ps !! i) as [p|]; [|reflexivity].
  unfold render_pipe. destruct (_ && _); reflexivity.
Qed.

Lemma filter_print_digit d x : List.filter is_print (draw_digit d x) = [].
Proof. destruct d as [|[[]|[]|]|]; reflexivity. Qed.

Lemma filter_print_digits fuel : forall s x,
  List.filter is_print (draw_digits fuel s x) = [].
Proof.
  induction fuel as [|fuel IH]; intros s x; simpl; [reflexivity|].
  destruct (0 <? s); [|reflexivity].
  simpl. rewrite List.filter_app, IH, filter_print_digit. reflexivity.
Qed.

(** X12.  [render_game] writes the score to the console in exactly the
    calls in which the score differs from the one it remembers, once, and
    remembers the score it has seen: a second call with the same score
    writes nothing.  Every call ends with [SDL_RenderPresent]. *)
Theorem render_game_console (last_score : Z) (g : Game) :
  List.filter is_print (fst (render_game last_score g)) =
    (if score g =? last_score then [] else [PrintScore (score g)])
  /\ snd (render_game last_score g) = score g
  /\ (forall g', score g' = score g ->
      List.filter is_print
        (fst (render_game (snd (render_game last_score g)) g')) = [])
  /\ last (fst (render_game last_score g)) = Some RenderPresent.
Proof.
  assert (Hfilter : forall ls h,
    List.filter is_print (fst (render_game ls h)) =
    (if score h =? ls then [] else [PrintScore (score h)])).
  { intros ls h. unfold render_game. cbn [fst].
    rewrite !List.filter_app, filter_print_pipes, filter_print_digits.
    cbn [List.filter is_print app].
    replace (List.filter is_print
               (if game_over h
                then [SetRenderDrawColor 255 0 0 255;
                      RenderFillRect
                        (mkRect (Z.quot SCREEN_WIDTH 2 - 100)
                                (Z.quot SCREEN_HEIGHT 2 - 30) 200 60)]
                else [])) with (@nil DrawCmd)
      by (destruct (game_over h); reflexivity).
    replace (List.filter is_print
               (if score h =? 0 then draw_zero_score 20 else []))
      with (@nil DrawCmd) by (destruct (score h =? 0); reflexivity).
    cbn [app]. destruct (score h =? ls); reflexivity. }
  split; [apply Hfilter|]. split; [reflexivity|]. split.
  - intros g' Hg'. rewrite Hfilter. cbn [snd render_game].
    replace (snd (render_game last_score g)) with (score g) by reflexivity.
    rewrite Hg', Z.eqb_refl. reflexivity.
  - unfold render_game. cbn [fst].
    rewrite !app_assoc. apply last_snoc.
Qed.

Lemma render_pipes_flat n : forall i ps,
  render_pipes n i ps = flat_map render_pipe (take n (drop i ps)).
Proof.
  induction n as [|n IH]; intros i ps; [reflexivity|].
  cbn [render_pipes]. rewrite IH.
  destruct (ps !! i) as [p|] eqn:Hp.
  - rewrite (drop_S ps p i Hp). reflexivity.
  - apply lookup_ge_None in Hp.
    rewrite !drop_ge by lia. rewrite !take_nil. reflexivity.
Qed.

Lemma render_pipe_visible p :
  in_int (pipe_x p + PIPE_WIDTH) ->
  (pipe_visible p ->
   render_pipe p = [RenderFillRect (pipe_top_rect p);
                    RenderFillRect (pipe_bottom_rect p)])
  /\ (~ pipe_visible p -> render_pipe p = []).
Proof.
  intros Hfit. unfold render_pipe, pipe_visible.
  rewrite int_add_exact by exact Hfit.
  destruct (Z.ltb_spec 0 (pipe_x p + PIPE_WIDTH));
    destruct (Z.ltb_spec (pipe_x p) SCREEN_WIDTH); cbn [andb];
    split; intros Hv; try reflexivity; exfalso; lia.
Qed.

(** X13.  [render_game] draws the two boxes of a pipe exactly when some
    of the pipe is on the screen, [-PIPE_WIDTH < x < SCREEN_WIDTH], top
    box first, in the order of the slots, and nothing else in its loop
    over the pipes: a pipe at [x = 800], where [create_pipe] puts it, or
    at [x = -60] is not drawn. *)
Theorem pipes_drawn (ps : list Pipe) :
  length ps = Z.to_nat MAX_PIPES ->
  Forall (fun p => in_int (pipe_x p + PIPE_WIDTH)) ps ->
  render_pipes (Z.to_nat MAX_PIPES) 0 ps = flat_map render_pipe ps
  /\ (forall c, In c (render_pipes (Z.to_nat MAX_PIPES) 0 ps) <->
        exists p, In p ps /\ pipe_visible p /\
                  (c = RenderFillRect (pipe_top_rect p) \/
                   c = RenderFillRect (pipe_bottom_rect p)))
  /\ (forall p, In p ps -> pipe_x p = SCREEN_WIDTH \/ pipe_x p = - PIPE_WIDTH ->
        render_pipe p = []).
Proof.
  intros Hlen Hfit.
  assert (Hflat : render_pipes (Z.to_nat MAX_PIPES) 0 ps = flat_map render_pipe ps).
  { rewrite render_pipes_flat, drop_0, <- Hlen, firstn_all. reflexivity. }
  rewrite Forall_forall in Hfit.
  split; [exact Hflat|]. split.
  - intros c. rewrite Hflat, in_flat_map. split.
    + intros (p & Hp & Hc). exists p. split; [exact Hp|].
      apply list_elem_of_In in Hp.
      destruct (render_pipe_visible p (Hfit p Hp)) as [Hv Hn].
      assert (Hdec : pipe_visible p \/ ~ pipe_visible p)
        by (unfold pipe_visible; lia).
      destruct Hdec as [H|H].
      * split; [exact H|]. rewrite (Hv H) in Hc.
        destruct Hc as [<-|[<-|[]]]; [left | right]; reflexivity.
      * rewrite (Hn H) in Hc. destruct Hc.
    + intros (p & Hp & Hv & Hc). exists p. split; [exact Hp|].
      apply list_elem_of_In in Hp.
      rewrite (proj1 (render_pipe_visible p (Hfit p Hp)) Hv).
      destruct Hc as [->| ->]; [left | right; left]; reflexivity.
  - intros p Hp Hx. apply list_elem_of_In in Hp.
    apply (render_pipe_visible p (Hfit p Hp)).
    unfold pipe_visible. lia.
Qed.

Lemma pipes_drawn_witness :
  In (RenderFillRect (mkRect 140 385 60 215))
     (render_pipes (Z.to_nat MAX_PIPES) 0 (pipes game_pipe_passing)).
Proof.
  assert (Hlen : length (pipes game_pipe_passing) = Z.to_nat MAX_PIPES)
    by reflexivity.
  assert (Hfit : Forall (fun p => in_int (pipe_x p + PIPE_WIDTH))
                        (pipes game_pipe_passing))
    by (apply Forall_forall; intros p Hp; apply list_elem_of_In in Hp;
        vm_compute in Hp;
        repeat (destruct Hp as [<-|Hp]; [vm_compute; split; discriminate|]);
        destruct Hp).
  apply (proj2 (proj1 (proj2 (pipes_drawn (pipes game_pipe_passing) Hlen Hfit))
                      (RenderFillRect (mkRect 140 385 60 215)))).
  exists (mkPipe 140 300 false (mkRect 140 0 60 215) (mkRect 140 385 60 215)).
  split; [vm_compute; left; reflexivity|].
  split; [vm_compute; split; reflexivity | right; reflexivity].
Defined.

(** ** main: the frame of a jump *)

Lemma poll_events_game evs : forall l,
  game_over (game l) = false ->
  game (fold_left handle_event evs l) =
  if existsb (fun ev => is_jump (fst ev)) evs
  then set_bird (set_bird_velocity (float_of_double JUMP_FORCE) (bird (game l)))
                (game l)
  else game l.
Proof.
  induction evs as [|[e now] evs IH]; intros l Hover; [reflexivity|].
  cbn [fold_left existsb fst].
  destruct (is_jump e) eqn:He; cbn [orb].
  - assert (Hg : game (handle_event l (e, now)) =
                 set_bird (set_bird_velocity (float_of_double JUMP_FORCE)
                                             (bird (game l))) (game l)).
    { rewrite handle_event_jump by exact He.
      unfold jump_or_restart. rewrite Hover. reflexivity. }
    rewrite IH by (rewrite Hg; exact Hover).
    rewrite Hg. destruct (existsb _ evs); reflexivity.
  - assert (Hg : game (handle_event l (e, now)) = game l)
      by (apply handle_event_no_jump, He).
    rewrite IH by (rewrite Hg; exact Hover).
    rewrite Hg. reflexivity.
Qed.

(** X14.  In a frame with a jump signal (one or several) and the game not
    over, the bird leaves the frame with the velocity [-8.0 + 0.4]
    rounded to [float], that is -15938355 / 2^21 (about -7.6), whatever
    its velocity was; its [y] is the old [y] plus that velocity and its
    box is at [(int)y]; unless that is above the screen, where [y], the
    box and the velocity are set to 0. *)
Theorem jump_frame_lift (f : Frame) (l : Loop) :
  game_over (game l) = false ->
  has_jump f = true ->
  let b := bird (game l) in
  let y := float_add (bird_y b) jump_velocity in
  let b' := bird (game (main_iteration f l)) in
  jump_velocity = S754_finite true 15938355 (-21)
  /\ (0 <= int_of_float y ->
      bird_velocity b' = jump_velocity /\ bird_y b' = y
      /\ rect_y (bird_rect b') = int_of_float y)
  /\ (int_of_float y < 0 ->
      bird_velocity b' = float_of_int 0 /\ bird_y b' = float_of_int 0
      /\ rect_y (bird_rect b') = 0).
Proof.
  intros Hover Hjump b y b'.
  split; [vm_compute; reflexivity|].
  pose proof (poll_events_game (frame_events f) l Hover) as Hg1.
  unfold has_jump in Hjump. rewrite Hjump in Hg1.
  assert (Hb' : b' = clamp_ceiling
                       (mkBird (bird_x b) y jump_velocity
                               (set_rect_y (int_of_float y) (bird_rect b)))).
  { unfold b', main_iteration. cbv zeta.
    generalize dependent (fold_left handle_event (frame_events f) l).
    intros [g1 q1] Hg1. cbn [game quit] in *. subst g1.
    cbn [game_over set_bird negb]. rewrite Hover. cbn [negb game].
    rewrite update_game_bird. reflexivity. }
  rewrite Hb'. unfold clamp_ceiling. cbn [bird_rect rect_y set_rect_y].
  split; intros Hy.
  - replace (int_of_float y <? 0) with false
      by (symmetry; apply Z.ltb_ge; exact Hy).
    repeat split.
  - replace (int_of_float y <? 0) with true
      by (symmetry; apply Z.ltb_lt; exact Hy).
    repeat split.
Qed.

Lemma jump_frame_lift_witness :
  let b' := bird (game (main_iteration (jump_frame 16) (start_game 0))) in
  bird_velocity b' = S754_finite true 15938355 (-21)
  /\ rect_y (bird_rect b') = 292.
Proof.
  cbv zeta.
  pose proof (jump_frame_lift (jump_frame 16) (start_game 0) eq_refl eq_refl)
    as H.
  cbv zeta in H. destruct H as (Hv & Hup & _).
  destruct Hup as (H1 & _ & H3); [vm_compute; discriminate|].
  split; [rewrite H1; exact Hv|].
  rewrite H3. vm_compute. reflexivity.
Defined.

(** ** main: the frame of a restart *)

Lemma reset_game_not_over now g : game_over (reset_game now g) = false.
Proof. reflexivity. Qed.

Lemma reset_game_score now g : score (reset_game now g) = 0.
Proof. reflexivity. Qed.

(** X15.  When the game is over, the first jump signal of a frame calls
    [reset_game], and the restart takes effect in that same iteration:
    the jump signals after it in the frame are jumps of the new game, and
    [update_game] is called on it before the frame is drawn.  So the
    iteration leaves the game not reset to rest but one update on. *)
Theorem restart_frame (f : Frame) (l : Loop)
    (pre post : list (SDL_Event * Z)) (e : SDL_Event) (t : Z) :
  game_over (game l) = true ->
  frame_events f = pre ++ (e, t) :: post ->
  Forall (fun ev => is_jump (fst ev) = false) pre ->
  is_jump e = true ->
  let g0 := reset_game t (game l) in
  let g1 := if existsb (fun ev => is_jump (fst ev)) post
            then set_bird (set_bird_velocity (float_of_double JUMP_FORCE)
                                             (bird g0)) g0
            else g0 in
  game (main_iteration f l) = update_game (frame_now f) (frame_rand f) g1
  /\ game_over g0 = false /\ score g0 = 0 /\ last_pipe_time g1 = t
  /\ bird (game (main_iteration f l)) = fly (bird g1).
Proof.
  intros Hover Hevs Hpre He g0 g1.
  assert (Hg1 : game (fold_left handle_event (frame_events f) l) = g1).
  { rewrite Hevs, fold_left_app. cbn [fold_left].
    pose proof (poll_events_no_jump pre l Hpre) as Hp.
    assert (Hr : game (handle_event (fold_left handle_event pre l) (e, t))
                 = g0).
    { rewrite handle_event_jump by exact He. rewrite Hp.
      unfold jump_or_restart. rewrite Hover. reflexivity. }
    rewrite poll_events_game by (rewrite Hr; apply reset_game_not_over).
    rewrite Hr. reflexivity. }
  assert (Hover1 : game_over g1 = false).
  { unfold g1. destruct (existsb _ post); reflexivity. }
  assert (Hmain : game (main_iteration f l) =
                  update_game (frame_now f) (frame_rand f) g1).
  { unfold main_iteration. cbv zeta.
    generalize dependent (fold_left handle_event (frame_events f) l).
    intros [g' q'] Hg'. cbn [game quit] in *. subst g'.
    rewrite Hover1. cbn [negb game]. reflexivity. }
  split; [exact Hmain|]. split; [reflexivity|]. split; [reflexivity|].
  split.
  - unfold g1. destruct (existsb _ post); reflexivity.
  - rewrite Hmain. apply update_game_bird.
Qed.

Lemma restart_frame_witness :
  let g := game (main_iteration (jump_frame 600) (mkLoop game_ended false)) in
  game_over g = false /\ score g = 0 /\ rect_y (bird_rect (bird g)) = 300
  /\ last_pipe_time g = 600.
Proof.
  cbv zeta.
  assert (Hover : game_over (game (mkLoop game_ended false)) = true)
    by (vm_compute; reflexivity).
  pose proof (restart_frame (jump_frame 600) (mkLoop game_ended false)
                [] [] (SDL_KEYDOWN SDLK_SPACE) 600 Hover eq_refl
                (List.Forall_nil _) eq_refl) as H.
  cbv zeta in H. destruct H as (H1 & _).
  rewrite H1. vm_compute. repeat split.
Defined.

(** ** main: start-up and clean-up *)

(** X16.  [main] returns 1 exactly when the library cannot be
    initialised, or no window is created, or neither renderer is; it
    returns 0 exactly when start-up succeeds and the loop ends.  When it
    returns it has released what it acquired: [SDL_Quit] is called exactly
    when [SDL_Init] succeeded, and is then the last call to the library;
    the window is destroyed exactly when it was created, the renderer
    exactly on the return of 0.  The accelerated renderer is asked for
    exactly when the software renderer failed; the game starts only with
    a renderer. *)
Theorem main_exit (s : Startup) (now : Z) (fs : list Frame) :
  let calls := fst (main s now fs) in
  let code := snd (main s now fs) in
  (code = Some 1 <->
     init_ok s = false \/ window_ok s = false \/
     (software_ok s = false /\ accelerated_ok s = false))
  /\ (code = Some 0 <->
        init_ok s = true /\ window_ok s = true /\
        (software_ok s = true \/ accelerated_ok s = true) /\
        quit (main_loop fs (start_game now)) = true)
  /\ (code <> None ->
        (In SDL_Quit calls <-> init_ok s = true)
        /\ (In SDL_DestroyWindow calls <->
              init_ok s = true /\ window_ok s = true)
        /\ (In SDL_DestroyRenderer calls <-> code = Some 0)
        /\ (init_ok s = true ->
              last (List.filter
                      (fun c => match c with Print _ => false | _ => true end)
                      calls) = Some SDL_Quit))
  /\ (In (SDL_CreateRenderer SDL_RENDERER_ACCELERATED) calls <->
        init_ok s = true /\ window_ok s = true /\ software_ok s = false)
  /\ (In SDL_CreateWindow calls <-> init_ok s = true).
Proof.
  intros calls code. subst calls code. unfold main, main_run.
  generalize (quit (main_loop fs (start_game now))). intros q.
  destruct s as [[|] [|] [|] [|]]; destruct q;
    cbn [init_ok window_ok software_ok accelerated_ok negb app fst snd
         List.filter last In];
    repeat split; intros; try reflexivity; try discriminate;
    intuition (try discriminate; try congruence).
Qed.
